(** * pkg/encoding/ecdsa.go: secp256k1 key and signature codec

    A shallow embedding of [EncodeS256PubKey], [DecodeECDSAPubKey] and
    [ComposeECDSASignature], together with the parts of Go's [math/big]
    and of the slice builtins that these three functions call.

    Conventions.
    - A Go [[]byte] is a [list byte]; a [*big.Int] is a [Z] (pointers are
      taken to be non-nil).
    - A Go call either returns a value, returns a non-nil [error], or
      panics; this is the three-way type [outcome].
    - [ComposeECDSASignature] is given twice: by value, on byte strings,
      and over a store of backing arrays ([ComposeECDSASignature_in]),
      where allocation and sharing are visible.  [Compose_in_run] relates
      the two. *)

From Stdlib Require Import ZArith NArith Lia.
From Stdlib Require Import Strings.Byte.
From stdpp Require Import base list strings.

Local Open Scope Z_scope.

(** ** Outcomes of a Go call *)

(** [errors.New(msg)]: an error value is its message. *)
Definition error := string.

Module errors.
Definition New (msg : string) : error := msg.
End errors.

(** The run-time panics that the embedded code can raise. *)
Inductive panic : Type :=
  | BufferTooSmall     (* "math/big: buffer too small to fit value" *)
  | IndexOutOfRange.   (* runtime error: index out of range *)

Inductive outcome (A : Type) : Type :=
  | Ret (a : A)        (* normal return, [err == nil] *)
  | Fail (e : error)   (* return with a non-nil error *)
  | Panic (p : panic). (* the call panics *)

Arguments Ret {A} a.
Arguments Fail {A} e.
Arguments Panic {A} p.

#[global] Instance outcome_bind : MBind outcome := fun A B f m =>
  match m with
  | Ret a => f a
  | Fail e => Fail e
  | Panic p => Panic p
  end.

(** ** Slice builtins *)

(** [make([]byte, n)] *)
Definition make (n : nat) : list byte := replicate n x00.

(** [buf[lo:hi]] *)
Definition slice (buf : list byte) (lo hi : nat) : list byte :=
  take (hi - lo) (drop lo buf).

(** [copy(dst, src)]: the new contents of [dst]; the first
    [min(len(dst), len(src))] elements are overwritten. *)
Definition copy (dst src : list byte) : list byte :=
  let n := Nat.min (length dst) (length src) in
  take n src ++ drop n dst.

(** [copy(buf[lo:hi], src)], seen from [buf]: the window is overwritten in
    place, the rest of the backing array is untouched. *)
Definition copy_slice (buf : list byte) (lo hi : nat) (src : list byte)
  : list byte :=
  take lo buf ++ copy (slice buf lo hi) src ++ drop hi buf.

(** [s[i]] as an rvalue: panics when [i] is out of range. *)
Definition index (s : list byte) (i : nat) : outcome byte :=
  match s !! i with
  | Some b => Ret b
  | None => Panic IndexOutOfRange
  end.

(** [s[i] = v]: panics when [i] is out of range. *)
Definition store (s : list byte) (i : nat) (v : byte) : outcome (list byte) :=
  if decide (i < length s)%nat then Ret (<[i := v]> s)
  else Panic IndexOutOfRange.

(** ** math/big

    [math/big] is Go's standard library.  The three methods the codec
    calls are written after [int.go] and [nat.go]: [SetBytes] reads a
    big-endian magnitude, [nat.bytes] writes one into the tail of a buffer
    and panics when a non-zero byte would fall before its start, [Bytes]
    and [FillBytes] are its two callers. *)

(** [byte(d)]: the low eight bits of a word. *)
Definition byte_of_N (d : N) : byte :=
  match Byte.of_N (d mod 256) with
  | Some b => b
  | None => x00
  end.

Module big.

(** [nat.setBytes]: the big-endian value of a byte string. *)
Definition setBytes (buf : list byte) : N :=
  fold_left (fun acc b => (acc * 256 + Byte.to_N b)%N) buf 0%N.

(** [new(big.Int).SetBytes(buf)]: a non-negative integer. *)
Definition SetBytes (buf : list byte) : Z := Z.of_N (setBytes buf).

(** [nat.bytes] writes the magnitude from its low end into the tail of
    the buffer, one byte per step.  [put n a] is the contents of an
    [n]-byte buffer after the loop. *)
Fixpoint put (n : nat) (a : N) : list byte :=
  match n with
  | O => []
  | S k => put k (a / 256)%N ++ [byte_of_N a]
  end.

(** The bytes of the magnitude that would fall before the start of an
    [n]-byte buffer; [nat.bytes] panics as soon as one of them is not
    zero. *)
Definition spill (n : nat) (a : N) : N := (a / 256 ^ N.of_nat n)%N.

(** [x.FillBytes(buf)]: the buffer is cleared, then filled with [|x|],
    zero-extended, big-endian. *)
Definition FillBytes (x : Z) (buf : list byte) : outcome (list byte) :=
  let a := Z.abs_N x in
  if (spill (length buf) a =? 0)%N then Ret (put (length buf) a)
  else Panic BufferTooSmall.

(** Word size in bytes ([_S]) and number of words of a magnitude
    ([len(x.abs)]), for 64-bit words. *)
Definition _S : nat := 8.
Definition words (a : N) : nat := N.to_nat ((N.size a + 63) / 64).

(** The scan [for i < len(buf) && buf[i] == 0 { i++ }] followed by
    [buf[i:]]. *)
Fixpoint trim (buf : list byte) : list byte :=
  match buf with
  | x00 :: rest => trim rest
  | _ => buf
  end.

(** [x.Bytes()]: the minimal big-endian form of [|x|] (empty for 0). *)
Definition Bytes (x : Z) : list byte :=
  let a := Z.abs_N x in
  trim (put (words a * _S) a).

End big.

(** ** crypto/elliptic, crypto/ecdsa, btcec *)

Module elliptic.
(** The curves that occur: [btcec.S256()] in the decoder, and
    [elliptic.P256()] in the encoder's tests. *)
Inductive Curve : Type := S256 | P256.
End elliptic.

Module ecdsa.
(** [ecdsa.PublicKey{Curve, X, Y}] *)
Record PublicKey : Type := mkPublicKey
  { Curve : elliptic.Curve; X : Z; Y : Z }.
End ecdsa.

Module btcec.

(** The field prime of secp256k1, [2^256 - 2^32 - 977]. *)
Definition P : Z :=
  0xFFFFFFFFFFFFFFFFFFFFFFFFFFFFFFFFFFFFFFFFFFFFFFFFFFFFFFFEFFFFFC2F.

(** Modelled from the spec: [btcec.S256().IsOnCurve] belongs to the
    btcec dependency and is not part of this repository; the codec relies
    on it to decide whether (X, Y) satisfies the secp256k1 curve
    equation, [y^2 = x^3 + 7] over the field of [P] elements. *)
Definition IsOnCurve (x y : Z) : bool :=
  (y * y) mod P =? (x * x * x + 7) mod P.

End btcec.

(** ** package encoding *)

Import ecdsa.

(** The two errors of [DecodeECDSAPubKey].  The spec calls the first
    [InvalidKeyEncoding] and the second [PointNotOnCurve]. *)
Definition InvalidKeyEncoding : error :=
  errors.New "invalid encoded key length, expected 64 bytes".
Definition PointNotOnCurve : error :=
  errors.New "invalid public key: point not on secp256k1 curve".

(** [func EncodeS256PubKey(pubKey)], returning [[]byte] and an [error]
    that is always nil. *)
Definition EncodeS256PubKey (pubKey : PublicKey) : outcome (list byte) :=
  let publicKeyBytes := big.Bytes (X pubKey) ++ big.Bytes (Y pubKey) in
  Ret publicKeyBytes.

(** [len(encodedKey) == 65 && encodedKey[0] == 0x04]; the index is only
    evaluated when the length test holds, so it cannot panic. *)
Definition has_uncompressed_prefix (encodedKey : list byte) : bool :=
  (length encodedKey =? 65)%nat &&
  match encodedKey !! 0%nat with
  | Some b => Byte.eqb b x04
  | None => false
  end.

(** [func DecodeECDSAPubKey(encodedKey []byte)], returning a pointer to an
    [ecdsa.PublicKey] and an [error]. *)
Definition DecodeECDSAPubKey (encodedKey : list byte) : outcome PublicKey :=
  let encodedKey :=
    if has_uncompressed_prefix encodedKey
    then drop 1 encodedKey (* Strip uncompressed prefix *)
    else encodedKey in
  if negb (length encodedKey =? 64)%nat then Fail InvalidKeyEncoding
  else
    let x := big.SetBytes (take 32 encodedKey) in
    let y := big.SetBytes (drop 32 encodedKey) in
    let curve := elliptic.S256 in
    if negb (btcec.IsOnCurve x y) then Fail PointNotOnCurve
    else Ret {| Curve := curve; X := x; Y := y |}.

(** The last part of [DecodeECDSAPubKey], from the split of the 64-byte
    body onwards, named so that the lemmas can refer to it. *)
Definition parse_body (body : list byte) : outcome PublicKey :=
  let x := big.SetBytes (take 32 body) in
  let y := big.SetBytes (drop 32 body) in
  if btcec.IsOnCurve x y
  then Ret {| Curve := elliptic.S256; X := x; Y := y |}
  else Fail PointNotOnCurve.

(** [func ComposeECDSASignature(r, s, recovery []byte) []byte] *)
Definition ComposeECDSASignature (r s recovery : list byte)
  : outcome (list byte) :=
  let sigBytes := make 65 in
  rs ← big.FillBytes (big.SetBytes r) (make 32);
  let sigBytes := copy_slice sigBytes 0 32 rs in
  ss ← big.FillBytes (big.SetBytes s) (make 32);
  let sigBytes := copy_slice sigBytes 32 64 ss in
  v ← index recovery 0;
  store sigBytes 64 v.

(** Encoding a key and decoding the result, as a client of the package
    does. *)
Definition encode_then_decode (pubKey : PublicKey) : outcome PublicKey :=
  encodedKey ← EncodeS256PubKey pubKey;
  DecodeECDSAPubKey encodedKey.

(** ** Vocabulary of the specification *)

(** "[buf] left-padded with zero bytes" to a width of [n] bytes. *)
Definition left_pad (n : nat) (buf : list byte) : list byte :=
  replicate (n - length buf) x00 ++ buf.

(** "(X, Y) satisfies the secp256k1 curve equation". *)
Definition satisfies_curve_equation (x y : Z) : Prop :=
  (y ^ 2) mod btcec.P = (x ^ 3 + 7) mod btcec.P.

(** A valid secp256k1 public key: both coordinates are field elements and
    the point is on the curve. *)
Definition valid_secp256k1_key (pubKey : PublicKey) : Prop :=
  0 <= X pubKey < btcec.P /\ 0 <= Y pubKey < btcec.P /\
  satisfies_curve_equation (X pubKey) (Y pubKey).

(** A coordinate with 32 significant bytes. *)
Definition full_width (x : Z) : Prop := 2 ^ 248 <= x < 2 ^ 256.


(** ** Backing arrays

    The definitions above take byte strings by value.  Go passes slice
    values: windows onto backing arrays that live in a store and may be
    shared between slices.  What follows runs [ComposeECDSASignature] over
    such a store, with every [make] and every write to an array spelled
    out. *)

(** A slice value: the window [lo, hi) of the backing array number
    [arr]. *)
Record window : Type := mkWindow { arr : nat; lo : nat; hi : nat }.

(** The store: the backing arrays allocated so far, oldest first. *)
Abbreviation heap := (list (list byte)).

(** The bytes seen through a slice value. *)
Definition view (h : heap) (w : window) : list byte :=
  slice (default [] (h !! arr w)) (lo w) (hi w).

(** The slice value refers to an array of the store. *)
Definition allocated (h : heap) (w : window) : Prop :=
  (arr w < length h)%nat.

(** A Go call that reads and writes the store. *)
Definition go (A : Type) : Type := heap -> outcome (A * heap).

#[global] Instance go_ret : MRet go := fun A a h => Ret (a, h).

#[global] Instance go_bind : MBind go := fun A B f m h =>
  match m h with
  | Ret (a, h') => f a h'
  | Fail e => Fail e
  | Panic p => Panic p
  end.

(** Copying [bytes] into the window [w] of its backing array. *)
Definition write (w : window) (bytes : list byte) (h : heap) : heap :=
  alter (fun a => copy_slice a (lo w) (hi w) bytes) (arr w) h.

(** [make([]byte, n)]: a new backing array, and the slice of all of it. *)
Definition make_in (n : nat) : go window := fun h =>
  Ret (mkWindow (length h) 0 n, h ++ [make n]).

(** [w[a:b]]: the same backing array. *)
Definition sub (w : window) (a b : nat) : window :=
  mkWindow (arr w) (lo w + a) (lo w + b).

(** [copy(dst, src)] *)
Definition copy_in (dst src : window) : go unit := fun h =>
  Ret (tt, write dst (view h src) h).

(** [new(big.Int).SetBytes(buf)] *)
Definition SetBytes_in (buf : window) : go Z := fun h =>
  Ret (big.SetBytes (view h buf), h).

(** [x.FillBytes(buf)]: fills [buf] in place and returns it. *)
Definition FillBytes_in (x : Z) (buf : window) : go window := fun h =>
  match big.FillBytes x (view h buf) with
  | Ret filled => Ret (buf, write buf filled h)
  | Fail e => Fail e
  | Panic p => Panic p
  end.

(** [s[i]] as an rvalue. *)
Definition index_in (s : window) (i : nat) : go byte := fun h =>
  match index (view h s) i with
  | Ret b => Ret (b, h)
  | Fail e => Fail e
  | Panic p => Panic p
  end.

(** [s[i] = v] *)
Definition store_in (s : window) (i : nat) (v : byte) : go unit := fun h =>
  match store (view h s) i v with
  | Ret updated => Ret (tt, write s updated h)
  | Fail e => Fail e
  | Panic p => Panic p
  end.

(** [ComposeECDSASignature] over the store: the arguments and the result
    are slice values. *)
Definition ComposeECDSASignature_in (r s recovery : window) : go window :=
  sigBytes ← make_in 65;
  x ← SetBytes_in r;
  buf ← make_in 32;
  rs ← FillBytes_in x buf;
  _ ← copy_in (sub sigBytes 0 32) rs;
  y ← SetBytes_in s;
  buf ← make_in 32;
  ss ← FillBytes_in y buf;
  _ ← copy_in (sub sigBytes 32 64) ss;
  v ← index_in recovery 0;
  _ ← store_in sigBytes 64 v;
  mret sigBytes.

(** ** Sample data *)

(** The generator of secp256k1, a key whose coordinates both have 32
    significant bytes. *)
Definition generator_x : Z :=
  0x79BE667EF9DCBBAC55A06295CE870B07029BFCDB2DCE28D959F2815B16F81798.
Definition generator_y : Z :=
  0x483ADA7726A3C4655DA4FBFC0E1108A8FD17B448A68554199C47D08FFB10D4B8.

(** * Properties *)

(** ** Bytes and words *)

Section byte_facts.
Local Open Scope N_scope.

Lemma to_N_byte_of_N (d : N) : Byte.to_N (byte_of_N d) = d mod 256.
Proof.
  unfold byte_of_N.
  destruct (Byte.of_N (d mod 256)) as [b|] eqn:E.
  - by apply Byte.to_of_N.
  - apply Byte.of_N_None_iff in E.
    pose proof (N.mod_upper_bound d 256). lia.
Qed.

Lemma byte_of_N_to_N (b : byte) : byte_of_N (Byte.to_N b) = b.
Proof.
  unfold byte_of_N.
  pose proof (Byte.to_N_bounded b).
  rewrite N.mod_small by lia.
  by rewrite Byte.of_to_N.
Qed.

Lemma byte_of_N_mod (d : N) : byte_of_N (d mod 256) = byte_of_N d.
Proof. unfold byte_of_N. by rewrite N.Div0.mod_mod. Qed.

Lemma byte_of_N_zero_iff (d : N) : byte_of_N d = x00 <-> d mod 256 = 0.
Proof.
  split; intros H.
  - by rewrite <- to_N_byte_of_N, H.
  - by rewrite <- byte_of_N_mod, H.
Qed.

Lemma to_N_lt_256 (b : byte) : Byte.to_N b < 256.
Proof. pose proof (Byte.to_N_bounded b). lia. Qed.

Lemma pow256_pos (n : nat) : 0 < 256 ^ N.of_nat n.
Proof. apply N.neq_0_lt_0, N.pow_nonzero. lia. Qed.

Lemma pow256_succ (n : nat) : 256 ^ N.of_nat (S n) = 256 * 256 ^ N.of_nat n.
Proof. by rewrite Nat2N.inj_succ, N.pow_succ_r'. Qed.

End byte_facts.

(** ** Big-endian reading and writing *)

Section big_endian.
Local Open Scope N_scope.

Lemma setBytes_snoc (buf : list byte) (b : byte) :
  big.setBytes (buf ++ [b]) = big.setBytes buf * 256 + Byte.to_N b.
Proof. unfold big.setBytes. by rewrite fold_left_app. Qed.

Lemma setBytes_bound (buf : list byte) :
  big.setBytes buf < 256 ^ N.of_nat (length buf).
Proof.
  induction buf as [|b buf IH] using rev_ind; [done|].
  rewrite setBytes_snoc, length_app, Nat.add_comm. cbn [length Nat.add].
  rewrite pow256_succ. pose proof (to_N_lt_256 b). lia.
Qed.

Lemma length_put (n : nat) (a : N) : length (big.put n a) = n.
Proof.
  revert a; induction n as [|n IH]; intros a; cbn; [done|].
  rewrite length_app, IH. cbn. lia.
Qed.

(** Writing back what was read gives the same bytes. *)
Lemma put_setBytes (buf : list byte) :
  big.put (length buf) (big.setBytes buf) = buf.
Proof.
  induction buf as [|b buf IH] using rev_ind; [done|].
  rewrite length_app, Nat.add_comm. cbn [length Nat.add big.put].
  rewrite setBytes_snoc. pose proof (to_N_lt_256 b).
  replace ((big.setBytes buf * 256 + Byte.to_N b) / 256)
    with (big.setBytes buf).
  2:{ apply N.div_unique with (r := Byte.to_N b); lia. }
  rewrite IH. f_equal. f_equal.
  rewrite <- byte_of_N_mod.
  replace ((big.setBytes buf * 256 + Byte.to_N b) mod 256)
    with (Byte.to_N b).
  2:{ apply N.mod_unique with (q := big.setBytes buf); lia. }
  apply byte_of_N_to_N.
Qed.

(** Reading back what was written gives the value, cut to the width. *)
Lemma setBytes_put (n : nat) (a : N) :
  big.setBytes (big.put n a) = a mod 256 ^ N.of_nat n.
Proof.
  revert a; induction n as [|n IH]; intros a.
  - cbn. by rewrite N.mod_1_r.
  - cbn [big.put]. rewrite setBytes_snoc, IH, to_N_byte_of_N, pow256_succ.
    rewrite N.Div0.mod_mul_r. lia.
Qed.

Lemma put_zero (n : nat) : big.put n 0 = replicate n x00.
Proof.
  induction n as [|n IH]; [done|].
  cbn [big.put]. rewrite N.Div0.div_0_l, IH.
  change [byte_of_N 0] with (replicate 1 x00).
  rewrite <- replicate_add. f_equal. lia.
Qed.

(** A wider buffer only adds zero bytes in front. *)
Lemma put_wider (n k : nat) (a : N) :
  a < 256 ^ N.of_nat k ->
  big.put (n + k) a = replicate n x00 ++ big.put k a.
Proof.
  revert a; induction k as [|k IH]; intros a Ha.
  - cbn in Ha. assert (a = 0) as -> by lia.
    rewrite Nat.add_0_r, put_zero. cbn. by rewrite app_nil_r.
  - rewrite Nat.add_succ_r. cbn [big.put].
    rewrite IH, app_assoc; [done|].
    rewrite pow256_succ in Ha.
    apply N.Div0.div_lt_upper_bound. lia.
Qed.

(** The most significant byte comes first. *)
Lemma put_cons (n : nat) (a : N) :
  big.put (S n) a = byte_of_N (a / 256 ^ N.of_nat n) :: big.put n a.
Proof.
  revert a; induction n as [|n IH]; intros a.
  - cbn. by rewrite N.div_1_r.
  - change (big.put (S (S n)) a)
      with (big.put (S n) (a / 256) ++ [byte_of_N a]).
    rewrite IH. cbn [big.put app]. f_equal. f_equal.
    rewrite pow256_succ, N.Div0.div_div. done.
Qed.

Lemma spill_zero_iff (n : nat) (a : N) :
  big.spill n a = 0 <-> a < 256 ^ N.of_nat n.
Proof.
  unfold big.spill. pose proof (pow256_pos n).
  split; intros H1.
  - apply N.div_small_iff in H1; lia.
  - apply N.div_small; lia.
Qed.

End big_endian.

(** ** [FillBytes] and [Bytes] *)

Section fill_and_trim.
Local Open Scope N_scope.

Lemma length_make (n : nat) : length (make n) = n.
Proof. apply length_replicate. Qed.

Lemma abs_N_SetBytes (buf : list byte) :
  Z.abs_N (big.SetBytes buf) = big.setBytes buf.
Proof. apply Zabs2N.id. Qed.

(** [FillBytes] returns exactly when the magnitude fits the buffer. *)
Lemma FillBytes_fits (x : Z) (buf : list byte) :
  Z.abs_N x < 256 ^ N.of_nat (length buf) ->
  big.FillBytes x buf = Ret (big.put (length buf) (Z.abs_N x)).
Proof.
  intros Hx. unfold big.FillBytes.
  apply spill_zero_iff in Hx. by rewrite Hx.
Qed.

Lemma FillBytes_overflow (x : Z) (buf : list byte) :
  256 ^ N.of_nat (length buf) <= Z.abs_N x ->
  big.FillBytes x buf = Panic BufferTooSmall.
Proof.
  intros Hx. unfold big.FillBytes.
  destruct (N.eqb_spec (big.spill (length buf) (Z.abs_N x)) 0) as [E|E];
    [|done].
  apply spill_zero_iff in E. lia.
Qed.

(** What [FillBytes] returns has the length of the buffer and reads back
    as the whole magnitude: no high-order byte is lost. *)
Lemma FillBytes_Ret (x : Z) (buf out : list byte) :
  big.FillBytes x buf = Ret out ->
  length out = length buf /\ big.setBytes out = Z.abs_N x.
Proof.
  unfold big.FillBytes.
  destruct (N.eqb_spec (big.spill (length buf) (Z.abs_N x)) 0) as [E|E];
    [|done].
  intros [= <-]. apply spill_zero_iff in E.
  by rewrite length_put, setBytes_put, N.mod_small.
Qed.

(** Left-padding: a byte string no longer than the buffer is copied to
    its tail behind zero bytes. *)
Lemma FillBytes_SetBytes (n : nat) (buf : list byte) :
  (length buf <= n)%nat ->
  big.FillBytes (big.SetBytes buf) (make n)
  = Ret (replicate (n - length buf) x00 ++ buf).
Proof.
  intros Hn. pose proof (setBytes_bound buf) as Hb.
  rewrite FillBytes_fits; rewrite abs_N_SetBytes, length_make.
  - replace n with ((n - length buf) + length buf)%nat at 1 by lia.
    by rewrite put_wider, put_setBytes.
  - eapply N.lt_le_trans; [exact Hb|].
    apply N.pow_le_mono_r; lia.
Qed.

Lemma trim_zeros (n : nat) (l : list byte) :
  big.trim (replicate n x00 ++ l) = big.trim l.
Proof. induction n as [|n IH]; [done|]. exact IH. Qed.

Lemma trim_nonzero (b : byte) (l : list byte) :
  b <> x00 -> big.trim (b :: l) = b :: l.
Proof. by destruct b. Qed.

Lemma words_enough (k : nat) (a : N) :
  256 ^ N.of_nat k <= a -> (S k <= big.words a * big._S)%nat.
Proof.
  intros Ha. unfold big.words, big._S.
  pose proof (N.size_gt a) as Hs.
  assert (8 * N.of_nat k < N.size a) as Hlt.
  { apply (N.pow_lt_mono_r_iff 2); [lia|].
    rewrite N.pow_mul_r. change (2 ^ 8) with 256. lia. }
  pose proof (N.div_mod (N.size a + 63) 64 ltac:(lia)) as Hd.
  pose proof (N.mod_upper_bound (N.size a + 63) 64 ltac:(lia)).
  lia.
Qed.

(** [Bytes] of a magnitude with exactly [k + 1] significant bytes. *)
Lemma Bytes_put (k : nat) (x : Z) :
  256 ^ N.of_nat k <= Z.abs_N x < 256 ^ N.of_nat (S k) ->
  big.Bytes x = big.put (S k) (Z.abs_N x).
Proof.
  intros [Hlo Hhi]. unfold big.Bytes. cbv zeta.
  pose proof (words_enough k _ Hlo) as Hw.
  replace (big.words (Z.abs_N x) * big._S)%nat
    with ((big.words (Z.abs_N x) * big._S - S k) + S k)%nat by lia.
  rewrite put_wider, trim_zeros, put_cons by done.
  apply trim_nonzero. rewrite byte_of_N_zero_iff.
  pose proof (pow256_pos k). rewrite pow256_succ in Hhi.
  assert (1 <= Z.abs_N x / 256 ^ N.of_nat k).
  { apply N.div_le_lower_bound; lia. }
  assert (Z.abs_N x / 256 ^ N.of_nat k < 256).
  { apply N.Div0.div_lt_upper_bound. lia. }
  rewrite N.mod_small; lia.
Qed.

Lemma Bytes_zero : big.Bytes 0 = [].
Proof. reflexivity. Qed.

End fill_and_trim.

(** A coordinate with 32 significant bytes is encoded on 32 bytes. *)
Lemma Bytes_full_width (x : Z) :
  2 ^ 248 <= x < 2 ^ 256 -> big.Bytes x = big.put 32 (Z.to_N x).
Proof.
  intros Hx. rewrite (Bytes_put 31).
  - f_equal. lia.
  - change (256 ^ N.of_nat 31)%N with (Z.to_N (2 ^ 248)).
    change (256 ^ N.of_nat 32)%N with (Z.to_N (2 ^ 256)). lia.
Qed.

Lemma Bytes_length_le (k : nat) (x : Z) :
  (Z.abs_N x < 256 ^ N.of_nat k)%N -> (length (big.Bytes x) <= k)%nat.
Proof.
  induction k as [|k IH]; intros Hx.
  - change (256 ^ N.of_nat 0)%N with 1%N in Hx.
    assert (Z.abs_N x = 0%N) as E by lia.
    replace (big.Bytes x) with (@nil byte); [done|].
    unfold big.Bytes. by rewrite E.
  - destruct (N.lt_ge_cases (Z.abs_N x) (256 ^ N.of_nat k)) as [Hlt|Hge].
    + specialize (IH Hlt). lia.
    + rewrite (Bytes_put k), length_put by done. lia.
Qed.


(** ** Slices *)

Lemma copy_slice_exact (buf src : list byte) (lo hi : nat) :
  (lo <= hi <= length buf)%nat -> length src = (hi - lo)%nat ->
  copy_slice buf lo hi src = take lo buf ++ src ++ drop hi buf.
Proof.
  intros Hb Hs. unfold copy_slice, copy, slice.
  rewrite length_take, length_drop, Hs.
  replace (Nat.min (Nat.min (hi - lo) (length buf - lo)) (hi - lo))
    with (hi - lo)%nat by lia.
  rewrite <- Hs at 1. rewrite firstn_all.
  rewrite drop_ge; [by rewrite app_nil_r|].
  rewrite length_take, length_drop. lia.
Qed.

(** ** [ComposeECDSASignature] as a sequence of three fallible steps *)

(** The two [copy] calls and the final store assemble the filled buffers
    and the first recovery byte side by side. *)
Lemma Compose_steps (r s recovery : list byte) :
  ComposeECDSASignature r s recovery =
  (rs ← big.FillBytes (big.SetBytes r) (make 32);
   ss ← big.FillBytes (big.SetBytes s) (make 32);
   v ← index recovery 0;
   Ret (rs ++ ss ++ [v])).
Proof.
  unfold ComposeECDSASignature.
  destruct (big.FillBytes (big.SetBytes r) (make 32)) as [rs| |] eqn:Er;
    [|done..].
  destruct (big.FillBytes (big.SetBytes s) (make 32)) as [ss| |] eqn:Es;
    [|done..].
  apply FillBytes_Ret in Er as [Lr _]. apply FillBytes_Ret in Es as [Ls _].
  rewrite length_make in Lr, Ls. cbv zeta. cbn [mbind outcome_bind].
  destruct (index recovery 0) as [v| |]; [|done..].
  cbn [mbind outcome_bind].
  rewrite (copy_slice_exact (make 65) rs 0 32)
    by (rewrite ?length_make; lia).
  change (take 0 (make 65)) with (@nil byte).
  change (drop 32 (make 65)) with (make 33). cbn [app].
  rewrite copy_slice_exact
    by (rewrite ?length_app, ?length_make, ?Lr; cbn; lia).
  rewrite take_app_length' by done.
  replace 64%nat with (length rs + 32)%nat by lia.
  rewrite drop_app_add.
  change (drop 32 (make 33)) with [x00].
  unfold store. rewrite !length_app, Lr, Ls. cbn [length].
  destruct (decide (32 + 32 < 32 + (32 + 1))%nat) as [_|]; [|lia].
  f_equal. rewrite app_assoc.
  replace (32 + 32)%nat with (length (rs ++ ss) + 0)%nat
    by (rewrite length_app; lia).
  rewrite insert_app_r. cbn. by rewrite <- app_assoc.
Qed.

(** [index recovery 0] reads the head of the slice. *)
Lemma index_0 (recovery : list byte) :
  index recovery 0 =
  match recovery with v :: _ => Ret v | [] => Panic IndexOutOfRange end.
Proof. by destruct recovery. Qed.

(** The function has no error result: it returns or panics. *)
Lemma Compose_never_Fail (r s recovery : list byte) (e : error) :
  ComposeECDSASignature r s recovery <> Fail e.
Proof.
  rewrite Compose_steps. unfold big.FillBytes, index.
  repeat (case_match; cbn; try done).
Qed.

(** Whatever is returned has 65 bytes, and its two halves read back as
    the full values of [r] and [s]. *)
Lemma Compose_Ret_inv (r s recovery out : list byte) :
  ComposeECDSASignature r s recovery = Ret out ->
  length out = 65%nat /\
  big.SetBytes (slice out 0 32) = big.SetBytes r /\
  big.SetBytes (slice out 32 64) = big.SetBytes s /\
  out !! 64%nat = recovery !! 0%nat.
Proof.
  rewrite Compose_steps.
  destruct (big.FillBytes (big.SetBytes r) (make 32)) as [rs| |] eqn:Er;
    [|done..].
  destruct (big.FillBytes (big.SetBytes s) (make 32)) as [ss| |] eqn:Es;
    [|done..].
  cbn [mbind outcome_bind]. rewrite index_0.
  destruct recovery as [|v t]; [done|]. intros [= <-].
  apply FillBytes_Ret in Er as [Lr Vr]. apply FillBytes_Ret in Es as [Ls Vs].
  rewrite length_make in Lr, Ls. rewrite abs_N_SetBytes in Vr, Vs.
  unfold slice, big.SetBytes. split_and!.
  - rewrite !length_app, Lr, Ls. done.
  - rewrite drop_0, take_app_length' by done. by rewrite Vr.
  - rewrite drop_app_length', take_app_length' by done. by rewrite Vs.
  - rewrite lookup_app_r by lia. rewrite lookup_app_r by lia.
    by rewrite Lr, Ls.
Qed.

(** ** Values that do not fit *)

Lemma setBytes_cons (b : byte) (buf : list byte) :
  big.setBytes (b :: buf)
  = (Byte.to_N b * 256 ^ N.of_nat (length buf) + big.setBytes buf)%N.
Proof.
  induction buf as [|c buf IH] using rev_ind.
  - cbn. lia.
  - rewrite app_comm_cons, !setBytes_snoc, IH, length_app, Nat.add_comm.
    cbn [length Nat.add]. rewrite pow256_succ. lia.
Qed.

(** A byte string with a non-zero first byte has a value of full length. *)
Lemma SetBytes_leading_nonzero (b : byte) (buf : list byte) :
  b <> x00 -> 256 ^ Z.of_nat (length buf) <= big.SetBytes (b :: buf).
Proof.
  intros Hb. unfold big.SetBytes. rewrite setBytes_cons.
  assert (Byte.to_N b <> 0%N) as Hn.
  { intros E. apply Hb. by rewrite <- (byte_of_N_to_N b), E. }
  rewrite N2Z.inj_add, N2Z.inj_mul, N2Z.inj_pow, nat_N_Z.
  change (Z.of_N 256) with 256.
  assert (0 < 256 ^ Z.of_nat (length buf)) by (apply Z.pow_pos_nonneg; lia).
  nia.
Qed.

Lemma Compose_overflow_r (r s recovery : list byte) :
  2 ^ 256 <= big.SetBytes r ->
  ComposeECDSASignature r s recovery = Panic BufferTooSmall.
Proof.
  intros Hr.
  rewrite Compose_steps, (FillBytes_overflow (big.SetBytes r)); [done|].
  rewrite abs_N_SetBytes, length_make.
  unfold big.SetBytes in Hr.
  change (256 ^ N.of_nat 32)%N with (Z.to_N (2 ^ 256)). lia.
Qed.

Lemma Compose_Ret_fits (r s recovery out : list byte) :
  ComposeECDSASignature r s recovery = Ret out ->
  big.SetBytes r < 2 ^ 256 /\ big.SetBytes s < 2 ^ 256.
Proof.
  intros H. apply Compose_Ret_inv in H as (_ & Hr & Hs & _).
  rewrite <- Hr, <- Hs. unfold big.SetBytes.
  pose proof (setBytes_bound (slice out 0 32)) as B1.
  pose proof (setBytes_bound (slice out 32 64)) as B2.
  assert (forall l, (length l <= 32)%nat ->
            (big.setBytes l < 256 ^ N.of_nat (length l))%N ->
            Z.of_N (big.setBytes l) < 2 ^ 256) as Hle.
  { intros l Hl Hb.
    assert (256 ^ N.of_nat (length l) <= 256 ^ N.of_nat 32)%N
      by (apply N.pow_le_mono_r; lia).
    change (2 ^ 256) with (Z.of_N (256 ^ N.of_nat 32)). lia. }
  split; apply Hle; try done; unfold slice; rewrite length_take; lia.
Qed.

(** ** [DecodeECDSAPubKey], case by case *)

Lemma IsOnCurve_spec (x y : Z) :
  btcec.IsOnCurve x y = true <-> satisfies_curve_equation x y.
Proof.
  unfold btcec.IsOnCurve, satisfies_curve_equation.
  rewrite Z.eqb_eq.
  replace (y ^ 2) with (y * y) by lia.
  replace (x ^ 3) with (x * x * x) by lia. done.
Qed.

Lemma has_uncompressed_prefix_spec (encodedKey : list byte) :
  has_uncompressed_prefix encodedKey = true <->
  length encodedKey = 65%nat /\ encodedKey !! 0%nat = Some x04.
Proof.
  unfold has_uncompressed_prefix.
  rewrite andb_true_iff, Nat.eqb_eq.
  destruct (encodedKey !! 0%nat) as [b|]; [|intuition congruence].
  split; intros [L E]; split; try done.
  - apply Byte.byte_dec_bl in E. by subst b.
  - apply Byte.byte_dec_lb. congruence.
Qed.

Lemma Decode_raw (body : list byte) :
  length body = 64%nat -> DecodeECDSAPubKey body = parse_body body.
Proof.
  intros L. unfold DecodeECDSAPubKey, parse_body.
  destruct (has_uncompressed_prefix body) eqn:E.
  { apply has_uncompressed_prefix_spec in E as [E _]. lia. }
  rewrite L. cbn [Nat.eqb negb]. by destruct (btcec.IsOnCurve _ _).
Qed.

Lemma Decode_prefixed (body : list byte) :
  length body = 64%nat -> DecodeECDSAPubKey (x04 :: body) = parse_body body.
Proof.
  intros L. unfold DecodeECDSAPubKey, parse_body.
  assert (has_uncompressed_prefix (x04 :: body) = true) as ->.
  { apply has_uncompressed_prefix_spec. cbn. by rewrite L. }
  change (drop 1 (x04 :: body)) with body. cbv beta iota zeta.
  rewrite L. cbn [Nat.eqb negb]. by destruct (btcec.IsOnCurve _ _).
Qed.

Lemma Decode_bad_length (encodedKey : list byte) :
  has_uncompressed_prefix encodedKey = false ->
  length encodedKey <> 64%nat ->
  DecodeECDSAPubKey encodedKey = Fail InvalidKeyEncoding.
Proof.
  intros E L. unfold DecodeECDSAPubKey. rewrite E.
  apply Nat.eqb_neq in L. by rewrite L.
Qed.

(** The two halves of a 64-byte body are read as 32-byte big-endian
    numbers: writing them back on 32 bytes each restores the body. *)
Lemma parse_body_Ret (body : list byte) (pubKey : PublicKey) :
  length body = 64%nat -> parse_body body = Ret pubKey ->
  Curve pubKey = elliptic.S256 /\
  btcec.IsOnCurve (X pubKey) (Y pubKey) = true /\
  body = big.put 32 (Z.to_N (X pubKey)) ++ big.put 32 (Z.to_N (Y pubKey)).
Proof.
  intros L. unfold parse_body. cbv zeta.
  destruct (btcec.IsOnCurve _ _) eqn:E; [|done].
  intros [= <-]. cbn [Curve X Y]. split_and!; [done..|].
  unfold big.SetBytes. rewrite !N2Z.id.
  assert (length (take 32 body) = 32%nat) as L1
    by (rewrite length_take; lia).
  assert (length (drop 32 body) = 32%nat) as L2
    by (rewrite length_drop; lia).
  rewrite <- L1 at 1. rewrite <- L2 at 3.
  by rewrite !put_setBytes, take_drop.
Qed.

(** ** The store *)

Lemma view_extend (h k : heap) (w : window) :
  allocated h w -> view (h ++ k) w = view h w.
Proof. intros Hw. unfold view. by rewrite lookup_app_l. Qed.

(** Reading and writing the [i]-th array allocated after [h]. *)
Lemma view_at (h k : heap) (w : window) (i : nat) :
  arr w = (length h + i)%nat ->
  view (h ++ k) w = slice (default [] (k !! i)) (lo w) (hi w).
Proof.
  intros E. unfold view. rewrite E, lookup_app_r by lia.
  by replace (length h + i - length h)%nat with i by lia.
Qed.

Lemma write_at (h k : heap) (w : window) (i : nat) (bytes : list byte) :
  arr w = (length h + i)%nat ->
  write w bytes (h ++ k)
  = h ++ alter (fun a => copy_slice a (lo w) (hi w) bytes) i k.
Proof. intros E. unfold write. by rewrite E, alter_app_r. Qed.

Lemma slice_all (buf : list byte) (n : nat) :
  length buf = n -> slice buf 0 n = buf.
Proof. intros <-. unfold slice. by rewrite drop_0, Nat.sub_0_r, firstn_all. Qed.

Lemma copy_slice_all (buf src : list byte) (n : nat) :
  length buf = n -> length src = n -> copy_slice buf 0 n src = src.
Proof.
  intros Lb Ls. rewrite copy_slice_exact by lia.
  rewrite drop_ge by lia. cbn. by rewrite app_nil_r.
Qed.

Lemma Compose_in_run (h : heap) (r s recovery : window) :
  allocated h r -> allocated h s -> allocated h recovery ->
  ComposeECDSASignature_in r s recovery h =
  match ComposeECDSASignature (view h r) (view h s) (view h recovery) with
  | Ret out =>
      Ret (mkWindow (length h) 0 65,
           h ++ [out; slice out 0 32; slice out 32 64])
  | Fail e => Fail e
  | Panic p => Panic p
  end.
Proof.
  intros Hr Hs Hv. rewrite Compose_steps.
  unfold ComposeECDSASignature_in.
  cbv beta iota delta [mbind go_bind mret go_ret make_in SetBytes_in].
  rewrite !view_extend by done.
  (* r is filled into a new 32-byte array *)
  unfold FillBytes_in at 1.
  rewrite <- app_assoc, length_app. cbn [app length].
  rewrite (view_at h _ _ 1) by done. cbn [lookup list_lookup from_option id lo hi].
  rewrite slice_all by apply length_make.
  destruct (big.FillBytes (big.SetBytes (view h r)) (make 32))
    as [rs| |] eqn:Er; [|done..].
  apply FillBytes_Ret in Er as [Lr _]. rewrite length_make in Lr.
  rewrite (write_at h _ _ 1) by done. cbn [alter list_alter lo hi].
  rewrite (copy_slice_all (make 32)) by (done || apply length_make).
  (* and copied into sigBytes[0:32] *)
  unfold copy_in at 1, sub. cbn [arr lo hi Nat.add].
  rewrite (view_at h _ _ 1) by done.
  rewrite (write_at h _ _ 0) by (cbn; lia).
  cbn [lookup list_lookup from_option id alter list_alter lo hi].
  rewrite (slice_all rs) by done.
  rewrite (copy_slice_exact (make 65)) by (rewrite ?length_make; lia).
  change (take 0 (make 65)) with (@nil byte).
  change (drop 32 (make 65)) with (make 33). cbn [app].
  rewrite !view_extend by done.
  (* the same for s *)
  unfold FillBytes_in at 1.
  rewrite <- app_assoc, length_app. cbn [app length].
  rewrite (view_at h _ _ 2) by done.
  cbn [lookup list_lookup from_option id lo hi].
  rewrite slice_all by apply length_make.
  destruct (big.FillBytes (big.SetBytes (view h s)) (make 32))
    as [ss| |] eqn:Es; [|done..].
  apply FillBytes_Ret in Es as [Ls _]. rewrite length_make in Ls.
  rewrite (write_at h _ _ 2) by done. cbn [alter list_alter lo hi].
  rewrite (copy_slice_all (make 32)) by (done || apply length_make).
  unfold copy_in at 1. cbn [arr lo hi Nat.add].
  rewrite (view_at h _ _ 2) by done.
  rewrite (write_at h _ _ 0) by (cbn; lia).
  cbn [lookup list_lookup from_option id alter list_alter lo hi].
  rewrite (slice_all ss) by done.
  rewrite (copy_slice_exact (rs ++ make 33))
    by (rewrite ?length_app, ?length_make; lia).
  rewrite take_app_length' by done.
  replace 64%nat with (length rs + 32)%nat at 1 by lia.
  rewrite drop_app_add. change (drop 32 (make 33)) with [x00].
  (* the recovery byte *)
  unfold index_in. rewrite view_extend by done.
  cbn [outcome_bind].
  destruct (index (view h recovery) 0) as [v| |]; [|done..].
  unfold store_in. rewrite (view_at h _ _ 0) by (cbn; lia).
  cbn [lookup list_lookup from_option id lo hi].
  assert (length (rs ++ ss ++ [x00]) = 65%nat) as L
    by (rewrite !length_app, Lr, Ls; done).
  rewrite slice_all by done.
  unfold store. rewrite L.
  destruct (decide (64 < 65)%nat) as [_|]; [|lia].
  assert (<[64%nat := v]> (rs ++ ss ++ [x00]) = rs ++ ss ++ [v]) as ->.
  { rewrite !app_assoc.
    replace 64%nat with (length (rs ++ ss) + 0)%nat
      by (rewrite length_app; lia).
    by rewrite insert_app_r. }
  rewrite (write_at h _ _ 0) by (cbn; lia).
  cbn [alter list_alter lo hi outcome_bind].
  rewrite copy_slice_all by (rewrite ?length_app, ?Lr, ?Ls; done).
  unfold slice.
  rewrite drop_0, take_app_length', drop_app_length' by done.
  by rewrite take_app_length'.
Qed.

(** * The claims about [ComposeECDSASignature] *)

(** C1. For every [r] and [s] of 1 to 32 bytes and every one-byte recovery
    value, [ComposeECDSASignature] returns exactly 65 bytes: bytes [0,32)
    are [r] left-padded with zero bytes, bytes [32,64) are [s] left-padded
    with zero bytes, and byte 64 is the recovery value. *)
Theorem C1_compose_layout (r s : list byte) (v : byte) :
  (1 <= length r <= 32)%nat -> (1 <= length s <= 32)%nat ->
  exists out,
    ComposeECDSASignature r s [v] = Ret out /\
    length out = 65%nat /\
    slice out 0 32 = left_pad 32 r /\
    slice out 32 64 = left_pad 32 s /\
    out !! 64%nat = Some v.
Proof.
  intros Hr Hs. exists (left_pad 32 r ++ left_pad 32 s ++ [v]).
  assert (length (left_pad 32 r) = 32%nat) as Lr
    by (unfold left_pad; rewrite length_app, length_replicate; lia).
  assert (length (left_pad 32 s) = 32%nat) as Ls
    by (unfold left_pad; rewrite length_app, length_replicate; lia).
  split_and!.
  - rewrite Compose_steps, !FillBytes_SetBytes by lia. done.
  - rewrite !length_app, Lr, Ls. done.
  - unfold slice. by rewrite drop_0, take_app_length'.
  - unfold slice. by rewrite drop_app_length', take_app_length'.
  - rewrite lookup_app_r by lia. rewrite lookup_app_r by lia.
    by rewrite Lr, Ls.
Qed.

Lemma C1_compose_layout_witness :
  exists out,
    ComposeECDSASignature [x12; x34] [x56; x78] [x01] = Ret out /\
    length out = 65%nat /\
    slice out 0 32 = left_pad 32 [x12; x34] /\
    slice out 32 64 = left_pad 32 [x56; x78] /\
    out !! 64%nat = Some x01.
Proof. apply (C1_compose_layout [x12; x34] [x56; x78] x01); cbn; lia. Defined.




(** C7. [ComposeECDSASignature] is deterministic and keeps no state
    between calls.  Two calls in a row on the same three slices (the
    second one running in the store left by the first) return two distinct
    arrays with byte-identical contents of 65 bytes; the contents are what
    the by-value function gives for the bytes of the inputs, and the
    inputs themselves are left as they were. *)
Theorem C7_compose_deterministic
    (h h1 h2 : heap) (r s recovery sig1 sig2 : window) :
  allocated h r -> allocated h s -> allocated h recovery ->
  ComposeECDSASignature_in r s recovery h = Ret (sig1, h1) ->
  ComposeECDSASignature_in r s recovery h1 = Ret (sig2, h2) ->
  view h2 sig1 = view h2 sig2 /\
  length (view h2 sig1) = 65%nat /\
  arr sig1 <> arr sig2 /\
  ComposeECDSASignature (view h r) (view h s) (view h recovery)
  = Ret (view h2 sig1) /\
  view h2 r = view h r /\ view h2 s = view h s /\
  view h2 recovery = view h recovery.
Proof.
  intros Hr Hs Hv E1 E2.
  rewrite Compose_in_run in E1 by done.
  destruct (ComposeECDSASignature (view h r) (view h s) (view h recovery))
    as [out| |] eqn:E; [|done..].
  injection E1 as <- <-.
  pose proof (Compose_Ret_inv _ _ _ _ E) as (L & _).
  set (k := [out; slice out 0 32; slice out 32 64]) in *.
  assert (forall w, allocated h w -> allocated (h ++ k) w) as Hgrow.
  { intros w Hw. unfold allocated in *. rewrite length_app. lia. }
  rewrite Compose_in_run in E2 by auto.
  rewrite !view_extend, E in E2 by done.
  injection E2 as <- <-. fold k.
  rewrite <- app_assoc.
  assert (view (h ++ k ++ k) (mkWindow (length h) 0 65) = out) as V1.
  { rewrite (view_at h _ _ 0) by (cbn; lia). unfold k.
    cbn [app lookup list_lookup from_option id lo hi]. by apply slice_all. }
  assert (view (h ++ k ++ k) (mkWindow (length (h ++ k)) 0 65) = out) as V2.
  { rewrite length_app, (view_at h _ _ 3) by (cbn; lia). unfold k.
    cbn [app lookup list_lookup from_option id lo hi]. by apply slice_all. }
  rewrite V1, V2, !view_extend by done.
  split_and!; try done.
  cbn. rewrite length_app. cbn. lia.
Qed.

Lemma C7_compose_deterministic_witness :
  let h := [[x12; x34; x56; x78]; [x9a; xbc; xde; xf0]; [x01]] in
  let out := left_pad 32 [x12; x34; x56; x78]
             ++ left_pad 32 [x9a; xbc; xde; xf0] ++ [x01] in
  let k := [out; slice out 0 32; slice out 32 64] in
  view (h ++ k ++ k) (mkWindow 3 0 65) = view (h ++ k ++ k) (mkWindow 6 0 65)
  /\ length (view (h ++ k ++ k) (mkWindow 3 0 65)) = 65%nat.
Proof.
  intros h out k.
  destruct (C7_compose_deterministic h (h ++ k) (h ++ k ++ k)
              (mkWindow 0 0 4) (mkWindow 1 0 4) (mkWindow 2 0 1)
              (mkWindow 3 0 65) (mkWindow 6 0 65))
    as (H1 & H2 & _).
  - unfold allocated. cbn. lia.
  - unfold allocated. cbn. lia.
  - unfold allocated. cbn. lia.
  - vm_compute. reflexivity.
  - vm_compute. reflexivity.
  - split; [exact H1 | exact H2].
Defined.

(** C8. [ComposeECDSASignature] indexes [recovery[0]] unconditionally: the
    call returns only when the recovery slice is not empty, and for every
    [r] and [s] a call with an empty recovery slice panics. *)
Theorem C8_compose_empty_recovery (r s : list byte) :
  (exists p, ComposeECDSASignature r s [] = Panic p) /\
  ((length r <= 32)%nat -> (length s <= 32)%nat ->
   ComposeECDSASignature r s [] = Panic IndexOutOfRange) /\
  (forall recovery out,
     ComposeECDSASignature r s recovery = Ret out -> recovery <> []).
Proof.
  split_and!.
  - rewrite Compose_steps. unfold big.FillBytes.
    repeat (case_match; cbn; eauto).
  - intros Hr Hs. rewrite Compose_steps, !FillBytes_SetBytes by done. done.
  - intros recovery out H ->.
    pose proof (Compose_Ret_inv _ _ _ _ H) as (L & _ & _ & V).
    rewrite lookup_nil in V. apply lookup_ge_None in V. lia.
Qed.

Lemma C8_compose_empty_recovery_witness :
  ComposeECDSASignature [x12; x34] [x56; x78] [] = Panic IndexOutOfRange /\
  [x01] <> @nil byte.
Proof.
  pose proof (C8_compose_empty_recovery [x12; x34] [x56; x78])
    as (_ & H & K).
  split.
  - apply H; cbn; lia.
  - apply (K [x01] (left_pad 32 [x12; x34] ++ left_pad 32 [x56; x78]
                    ++ [x01])).
    vm_compute. reflexivity.
Defined.

(** C9. The output depends on the recovery slice only through its first
    byte: for every [r] and [s], two non-empty recovery slices with the
    same first byte give identical results, whatever follows that byte. *)
Theorem C9_compose_recovery_head (r s recovery1 recovery2 : list byte) :
  recovery1 <> [] -> recovery2 <> [] ->
  recovery1 !! 0%nat = recovery2 !! 0%nat ->
  ComposeECDSASignature r s recovery1 = ComposeECDSASignature r s recovery2.
Proof.
  intros H1 H2 E. rewrite !Compose_steps. unfold index. by rewrite E.
Qed.

Lemma C9_compose_recovery_head_witness :
  ComposeECDSASignature [x12; x34] [x56; x78] [x01]
  = ComposeECDSASignature [x12; x34] [x56; x78] [x01; xff; x07].
Proof.
  apply (C9_compose_recovery_head [x12; x34] [x56; x78]);
    [discriminate | discriminate | reflexivity].
Defined.

(** * The claims about [DecodeECDSAPubKey] *)

(** C5. For every 64-byte input, and every 65-byte input with the 0x04
    marker in front, whose parsed (X, Y) does not satisfy the secp256k1
    curve equation, [DecodeECDSAPubKey] fails with the point-not-on-curve
    error and returns no public key. *)
Theorem C5_decode_rejects_off_curve (encodedKey body : list byte) :
  encodedKey = body \/ encodedKey = x04 :: body ->
  length body = 64%nat ->
  ~ satisfies_curve_equation
      (big.SetBytes (take 32 body)) (big.SetBytes (drop 32 body)) ->
  DecodeECDSAPubKey encodedKey = Fail PointNotOnCurve /\
  forall pubKey, DecodeECDSAPubKey encodedKey <> Ret pubKey.
Proof.
  intros Hk L Hoff.
  assert (DecodeECDSAPubKey encodedKey = Fail PointNotOnCurve) as ->.
  { assert (DecodeECDSAPubKey encodedKey = parse_body body) as ->
      by (destruct Hk as [-> | ->]; auto using Decode_raw, Decode_prefixed).
    unfold parse_body. cbv zeta.
    destruct (btcec.IsOnCurve _ _) eqn:E; [|done].
    by apply IsOnCurve_spec in E. }
  done.
Qed.

Lemma C5_decode_rejects_off_curve_witness :
  DecodeECDSAPubKey (x04 :: replicate 63 x00 ++ [x01])
  = Fail PointNotOnCurve /\
  forall pubKey,
    DecodeECDSAPubKey (x04 :: replicate 63 x00 ++ [x01]) <> Ret pubKey.
Proof.
  apply (C5_decode_rejects_off_curve _ (replicate 63 x00 ++ [x01])).
  - right. reflexivity.
  - reflexivity.
  - unfold satisfies_curve_equation. vm_compute. discriminate.
Defined.

(** C6. Every input whose length is neither 64 nor 65-with-marker is
    refused with the invalid-length error.  A 64-byte input, and a 65-byte
    input with the marker once the marker byte is dropped, passes the
    length test and is split into two 32-byte big-endian integers X and Y:
    the outcome is the key (S256, X, Y) when the point is on the curve and
    the not-on-curve error otherwise, never the invalid-length error; X
    and Y are below [2^256] and written back on 32 bytes each they give
    the body.  In particular the marked input decodes like its body. *)
Theorem C6_decode_lengths (encodedKey : list byte) :
  (length encodedKey <> 64%nat ->
   ~ (length encodedKey = 65%nat /\ encodedKey !! 0%nat = Some x04) ->
   DecodeECDSAPubKey encodedKey = Fail InvalidKeyEncoding) /\
  (forall body,
   encodedKey = body \/ encodedKey = x04 :: body -> length body = 64%nat ->
   let x := big.SetBytes (take 32 body) in
   let y := big.SetBytes (drop 32 body) in
   DecodeECDSAPubKey encodedKey
   = (if btcec.IsOnCurve x y
      then Ret {| Curve := elliptic.S256; X := x; Y := y |}
      else Fail PointNotOnCurve) /\
   DecodeECDSAPubKey encodedKey <> Fail InvalidKeyEncoding /\
   0 <= x < 2 ^ 256 /\ 0 <= y < 2 ^ 256 /\
   body = big.put 32 (Z.to_N x) ++ big.put 32 (Z.to_N y)) /\
  (forall body, encodedKey = x04 :: body -> length body = 64%nat ->
   DecodeECDSAPubKey encodedKey = DecodeECDSAPubKey body) /\
  (forall body pubKey,
   encodedKey = body \/ encodedKey = x04 :: body -> length body = 64%nat ->
   DecodeECDSAPubKey encodedKey = Ret pubKey ->
   X pubKey = big.SetBytes (take 32 body) /\
   Y pubKey = big.SetBytes (drop 32 body) /\
   body = big.put 32 (Z.to_N (X pubKey)) ++ big.put 32 (Z.to_N (Y pubKey))).
Proof.
  split_and!.
  - intros L Hm. apply Decode_bad_length; [|done].
    destruct (has_uncompressed_prefix encodedKey) eqn:E; [|done].
    by apply has_uncompressed_prefix_spec in E.
  - intros body Hk L x y.
    assert (DecodeECDSAPubKey encodedKey = parse_body body) as ->
      by (destruct Hk as [-> | ->]; auto using Decode_raw, Decode_prefixed).
    assert (length (take 32 body) = 32%nat) as L1
      by (rewrite length_take; lia).
    assert (length (drop 32 body) = 32%nat) as L2
      by (rewrite length_drop; lia).
    pose proof (setBytes_bound (take 32 body)) as B1.
    pose proof (setBytes_bound (drop 32 body)) as B2.
    rewrite L1 in B1. rewrite L2 in B2.
    change (256 ^ N.of_nat 32)%N with (Z.to_N (2 ^ 256)) in B1, B2.
    unfold parse_body. fold x y. split_and!.
    + done.
    + by destruct (btcec.IsOnCurve x y).
    + unfold x, big.SetBytes. lia.
    + unfold x, big.SetBytes. lia.
    + unfold y, big.SetBytes. lia.
    + unfold y, big.SetBytes. lia.
    + unfold x, y, big.SetBytes. rewrite !N2Z.id.
      rewrite <- L1 at 1. rewrite <- L2 at 3.
      by rewrite !put_setBytes, take_drop.
  - intros body -> L. by rewrite Decode_prefixed, Decode_raw.
  - intros body pubKey Hk L H.
    assert (parse_body body = Ret pubKey) as Hp.
    { rewrite <- H. destruct Hk as [-> | ->];
        symmetry; auto using Decode_raw, Decode_prefixed. }
    pose proof (parse_body_Ret body pubKey L Hp) as (_ & _ & Hb).
    unfold parse_body in Hp. cbv zeta in Hp.
    destruct (btcec.IsOnCurve _ _); [|done].
    injection Hp as <-. done.
Qed.

Lemma C6_decode_lengths_witness :
  DecodeECDSAPubKey [x04; x01; x02] = Fail InvalidKeyEncoding /\
  DecodeECDSAPubKey
    (x04 :: big.put 32 (Z.to_N generator_x)
            ++ big.put 32 (Z.to_N generator_y))
  = Ret {| Curve := elliptic.S256; X := generator_x; Y := generator_y |} /\
  DecodeECDSAPubKey (x04 :: replicate 63 x00 ++ [x01])
  = Fail PointNotOnCurve.
Proof.
  split_and!.
  - apply (C6_decode_lengths [x04; x01; x02]); cbn; [lia | intros [? _]; lia].
  - pose proof (C6_decode_lengths
                  (x04 :: big.put 32 (Z.to_N generator_x)
                          ++ big.put 32 (Z.to_N generator_y)))
      as (_ & H & _).
    destruct (H (big.put 32 (Z.to_N generator_x)
                 ++ big.put 32 (Z.to_N generator_y)))
      as (E & _); [right; reflexivity | reflexivity |].
    rewrite E. vm_compute. reflexivity.
  - pose proof (C6_decode_lengths (x04 :: replicate 63 x00 ++ [x01]))
      as (_ & H & _).
    destruct (H (replicate 63 x00 ++ [x01]))
      as (E & _); [right; reflexivity | reflexivity |].
    rewrite E. vm_compute. reflexivity.
Defined.

(** C10. The leading byte of a 65-byte input is dropped only when it is
    exactly 0x04: every 65-byte input with another first byte is refused
    with the invalid-length error and is not parsed as a key. *)
Theorem C10_decode_other_marker (encodedKey : list byte) :
  length encodedKey = 65%nat -> encodedKey !! 0%nat <> Some x04 ->
  DecodeECDSAPubKey encodedKey = Fail InvalidKeyEncoding /\
  forall pubKey, DecodeECDSAPubKey encodedKey <> Ret pubKey.
Proof.
  intros L Hm.
  rewrite Decode_bad_length; [done| |lia].
  destruct (has_uncompressed_prefix encodedKey) eqn:E; [|done].
  by apply has_uncompressed_prefix_spec in E as [_ E].
Qed.

Lemma C10_decode_other_marker_witness :
  DecodeECDSAPubKey (x03 :: replicate 64 x00) = Fail InvalidKeyEncoding /\
  forall pubKey, DecodeECDSAPubKey (x03 :: replicate 64 x00) <> Ret pubKey.
Proof.
  apply (C10_decode_other_marker (x03 :: replicate 64 x00));
    [reflexivity | discriminate].
Defined.

(** * The claims about [EncodeS256PubKey] *)

Lemma SetBytes_put_256 (x : Z) :
  0 <= x < 2 ^ 256 -> big.SetBytes (big.put 32 (Z.to_N x)) = x.
Proof.
  intros Hx. unfold big.SetBytes. rewrite setBytes_put.
  change (256 ^ N.of_nat 32)%N with (Z.to_N (2 ^ 256)).
  rewrite N.mod_small by lia. lia.
Qed.

Lemma Encode_full_width (pubKey : PublicKey) :
  full_width (X pubKey) -> full_width (Y pubKey) ->
  EncodeS256PubKey pubKey
  = Ret (big.put 32 (Z.to_N (X pubKey)) ++ big.put 32 (Z.to_N (Y pubKey))).
Proof.
  intros Hx Hy. unfold EncodeS256PubKey. cbv zeta.
  by rewrite !Bytes_full_width.
Qed.

(** For keys whose coordinates both have 32 significant bytes, decoding
    undoes encoding. *)
Lemma roundtrip_full_width (pubKey : PublicKey) :
  valid_secp256k1_key pubKey ->
  full_width (X pubKey) -> full_width (Y pubKey) ->
  encode_then_decode pubKey
  = Ret {| Curve := elliptic.S256; X := X pubKey; Y := Y pubKey |}.
Proof.
  intros (_ & _ & Hc) Hx Hy. unfold encode_then_decode.
  rewrite Encode_full_width by done. cbn [mbind outcome_bind].
  rewrite Decode_raw by (rewrite length_app, !length_put; done).
  unfold parse_body. cbv zeta.
  rewrite take_app_length', drop_app_length' by (by rewrite length_put).
  unfold full_width in Hx, Hy.
  rewrite !SetBytes_put_256 by lia.
  apply IsOnCurve_spec in Hc. by rewrite Hc.
Qed.

Lemma Bytes_length_bound (k : nat) (x : Z) :
  0 <= x < 2 ^ (8 * Z.of_nat k) -> (length (big.Bytes x) <= k)%nat.
Proof.
  intros Hk. apply Bytes_length_le.
  apply N2Z.inj_lt. rewrite N2Z.inj_abs_N, N2Z.inj_pow, nat_N_Z.
  change (Z.of_N 256) with (2 ^ 8). rewrite <- Z.pow_mul_r by lia. lia.
Qed.

(** A coordinate below [2^248] makes the encoder's output shorter than 64
    bytes. *)
Lemma Encode_short_coordinate (pubKey : PublicKey) :
  0 <= X pubKey < 2 ^ 256 -> 0 <= Y pubKey < 2 ^ 256 ->
  X pubKey < 2 ^ 248 \/ Y pubKey < 2 ^ 248 ->
  (length (big.Bytes (X pubKey) ++ big.Bytes (Y pubKey)) < 64)%nat.
Proof.
  intros Hx Hy Hshort. rewrite length_app.
  pose proof (Bytes_length_bound 32 (X pubKey) ltac:(cbn; lia)) as Lx.
  pose proof (Bytes_length_bound 32 (Y pubKey) ltac:(cbn; lia)) as Ly.
  destruct Hshort as [H|H].
  - pose proof (Bytes_length_bound 31 (X pubKey) ltac:(cbn; lia)). lia.
  - pose proof (Bytes_length_bound 31 (Y pubKey) ltac:(cbn; lia)). lia.
Qed.

(** For valid keys with a coordinate below [2^248] the decoder refuses the
    encoder's output. *)
Lemma roundtrip_short_coordinate (pubKey : PublicKey) :
  valid_secp256k1_key pubKey ->
  X pubKey < 2 ^ 248 \/ Y pubKey < 2 ^ 248 ->
  encode_then_decode pubKey = Fail InvalidKeyEncoding.
Proof.
  intros (Hx & Hy & _) Hshort. unfold btcec.P in Hx, Hy.
  unfold encode_then_decode, EncodeS256PubKey. cbn [mbind outcome_bind].
  pose proof (Encode_short_coordinate pubKey ltac:(lia) ltac:(lia) Hshort)
    as L.
  apply Decode_bad_length; [|lia].
  destruct (has_uncompressed_prefix _) eqn:E; [|done].
  apply has_uncompressed_prefix_spec in E as [E _]. lia.
Qed.

(** What the encoder does by cases: for coordinates that both have 32
    significant bytes it emits X‖Y with 32 big-endian bytes per
    coordinate, 64 bytes in all; a coordinate below [2^248] makes the
    output shorter than 64 bytes. *)
Lemma Encode_layout (pubKey : PublicKey) :
  (full_width (X pubKey) -> full_width (Y pubKey) ->
   exists out,
     EncodeS256PubKey pubKey = Ret out /\
     length out = 64%nat /\
     big.SetBytes (slice out 0 32) = X pubKey /\
     big.SetBytes (slice out 32 64) = Y pubKey) /\
  EncodeS256PubKey pubKey
  = Ret (big.Bytes (X pubKey) ++ big.Bytes (Y pubKey)) /\
  (0 <= X pubKey < 2 ^ 256 -> 0 <= Y pubKey < 2 ^ 256 ->
   X pubKey < 2 ^ 248 \/ Y pubKey < 2 ^ 248 ->
   exists out,
     EncodeS256PubKey pubKey = Ret out /\ (length out < 64)%nat).
Proof.
  split_and!; [|done|].
  - intros Hx Hy.
    eexists. split; [by apply Encode_full_width|].
    unfold full_width in Hx, Hy. unfold slice. split_and!.
    + by rewrite length_app, !length_put.
    + rewrite drop_0, take_app_length' by (by rewrite length_put).
      apply SetBytes_put_256. lia.
    + rewrite drop_app_length' by (by rewrite length_put).
      rewrite firstn_all2 by (by rewrite length_put).
      apply SetBytes_put_256. lia.
  - intros Hx Hy Hshort. eexists. split; [done|].
    by apply Encode_short_coordinate.
Qed.

(** C3 is violated by the code.  The claim asks for X‖Y with each
    coordinate left-padded to 32 bytes, 64 bytes in all, also when a
    coordinate has high-order zero bytes.  For the valid on-curve
    secp256k1 key with X = 1 the encoder returns 33 bytes: the single byte
    01 for X, without the 31 zero bytes the claim requires in front of
    it, followed by the 32 bytes of Y.  The same holds for the key (12345,
    67890) of the package's test, encoded on five bytes. *)
Theorem C3_encode_omits_padding :
  let pubKey :=
    {| Curve := elliptic.S256; X := 1;
       Y := 0x4218f20ae6c646b363db68605822fb14264ca8d2587fdd6fbc750d587e76a7ee |} in
  valid_secp256k1_key pubKey /\
  EncodeS256PubKey pubKey
  = Ret (x01 :: big.put 32 (Z.to_N (Y pubKey))) /\
  EncodeS256PubKey pubKey
  <> Ret (left_pad 32 [x01] ++ big.put 32 (Z.to_N (Y pubKey))) /\
  length (x01 :: big.put 32 (Z.to_N (Y pubKey))) = 33%nat /\
  EncodeS256PubKey {| Curve := elliptic.P256; X := 12345; Y := 67890 |}
  = Ret [x30; x39; x01; x09; x32].
Proof.
  cbv zeta. split_and!.
  - unfold valid_secp256k1_key, satisfies_curve_equation, btcec.P.
    cbn [X Y]. split_and!; try lia. vm_compute. reflexivity.
  - vm_compute. reflexivity.
  - vm_compute. discriminate.
  - reflexivity.
  - vm_compute. reflexivity.
Qed.

(** C4 is violated by the code.  The point with X = 1 is a valid on-curve
    secp256k1 public key, yet encoding it and decoding the result fails
    with the invalid-length error: the encoder drops the 31 leading zero
    bytes of X and the decoder accepts 64 bytes only. *)
Theorem C4_roundtrip_fails_short_coordinate :
  let pubKey :=
    {| Curve := elliptic.S256; X := 1;
       Y := 0x4218f20ae6c646b363db68605822fb14264ca8d2587fdd6fbc750d587e76a7ee |} in
  valid_secp256k1_key pubKey /\
  encode_then_decode pubKey = Fail InvalidKeyEncoding.
Proof.
  cbv zeta. split.
  - unfold valid_secp256k1_key, satisfies_curve_equation, btcec.P.
    cbn [X Y]. split_and!; try lia. vm_compute. reflexivity.
  - vm_compute. reflexivity.
Qed.

(** * Further properties of the codec *)

(** ** Leading zero bytes *)

Lemma trim_cons (b : byte) (l : list byte) :
  big.trim (b :: l) = if Byte.eqb b x00 then big.trim l else b :: l.
Proof. by destruct b. Qed.

Lemma setBytes_zeros (n : nat) (l : list byte) :
  big.setBytes (replicate n x00 ++ l) = big.setBytes l.
Proof.
  induction n as [|n IH]; [done|].
  cbn [replicate app]. rewrite setBytes_cons, IH. cbn. lia.
Qed.

Lemma setBytes_trim (l : list byte) :
  big.setBytes (big.trim l) = big.setBytes l.
Proof.
  induction l as [|b l IH]; [done|].
  rewrite trim_cons. destruct (Byte.eqb b x00) eqn:E; [|done].
  apply Byte.byte_dec_bl in E as ->.
  rewrite IH. symmetry. apply (setBytes_zeros 1).
Qed.

(** Whatever the width of the buffer, trimming what [nat.bytes] wrote
    gives [Bytes]. *)
Lemma trim_put (n : nat) (x : Z) :
  (Z.abs_N x < 256 ^ N.of_nat n)%N ->
  big.trim (big.put n (Z.abs_N x)) = big.Bytes x.
Proof.
  induction n as [|n IH]; intros Hx.
  - change (256 ^ N.of_nat 0)%N with 1%N in Hx.
    assert (Z.abs_N x = 0%N) as E by lia.
    unfold big.Bytes. by rewrite E.
  - destruct (N.lt_ge_cases (Z.abs_N x) (256 ^ N.of_nat n)) as [Hlt|Hge].
    + rewrite <- IH by done.
      rewrite (put_wider 1 n) by done. apply (trim_zeros 1).
    + rewrite (Bytes_put n) by done.
      rewrite put_cons. apply trim_nonzero. rewrite byte_of_N_zero_iff.
      pose proof (pow256_pos n). rewrite pow256_succ in Hx.
      assert (1 <= Z.abs_N x / 256 ^ N.of_nat n)%N
        by (apply N.div_le_lower_bound; lia).
      assert (Z.abs_N x / 256 ^ N.of_nat n < 256)%N
        by (apply N.Div0.div_lt_upper_bound; lia).
      rewrite N.mod_small; lia.
Qed.

(** [Bytes] after [SetBytes] strips the leading zero bytes and nothing
    else. *)
Lemma Bytes_SetBytes (l : list byte) : big.Bytes (big.SetBytes l) = big.trim l.
Proof.
  rewrite <- (trim_put (length l)); rewrite abs_N_SetBytes.
  - by rewrite put_setBytes.
  - apply setBytes_bound.
Qed.

Lemma SetBytes_lt_256 (l : list byte) :
  (length l <= 32)%nat -> 0 <= big.SetBytes l < 2 ^ 256.
Proof.
  intros L. unfold big.SetBytes. pose proof (setBytes_bound l) as B.
  assert (256 ^ N.of_nat (length l) <= 256 ^ N.of_nat 32)%N
    by (apply N.pow_le_mono_r; lia).
  change (2 ^ 256) with (Z.of_N (256 ^ N.of_nat 32)). lia.
Qed.

Lemma SetBytes_inj (l1 l2 : list byte) :
  length l1 = length l2 -> big.SetBytes l1 = big.SetBytes l2 -> l1 = l2.
Proof.
  intros L E. apply N2Z.inj in E.
  by rewrite <- (put_setBytes l1), <- (put_setBytes l2), L, E.
Qed.

Lemma trim_id (l : list byte) : l !! 0%nat <> Some x00 -> big.trim l = l.
Proof.
  destruct l as [|b l]; [done|]. cbn. intros H.
  apply trim_nonzero. congruence.
Qed.

(** ** The decoder *)

(** Every accepted input is a 64-byte body, bare or behind the marker. *)
Lemma Decode_Ret_inv (encodedKey : list byte) (pubKey : PublicKey) :
  DecodeECDSAPubKey encodedKey = Ret pubKey ->
  exists body,
    (encodedKey = body \/ encodedKey = x04 :: body) /\
    length body = 64%nat /\ parse_body body = Ret pubKey.
Proof.
  intros H.
  destruct (has_uncompressed_prefix encodedKey) eqn:E.
  - apply has_uncompressed_prefix_spec in E as [L E0].
    destruct encodedKey as [|b body]; [done|].
    cbn in E0, L. injection E0 as ->.
    exists body. rewrite Decode_prefixed in H by lia. auto with lia.
  - destruct (decide (length encodedKey = 64%nat)) as [L|L].
    + exists encodedKey. rewrite Decode_raw in H by done. auto.
    + by rewrite Decode_bad_length in H.
Qed.

(** X1. A key returned by [DecodeECDSAPubKey] is a point of secp256k1: it
    carries the curve [S256], its coordinates satisfy the curve equation
    and are below [2^256], and the input had 64 bytes, or 65 bytes
    starting with 0x04. *)
Theorem Decode_sound (encodedKey : list byte) (pubKey : PublicKey) :
  DecodeECDSAPubKey encodedKey = Ret pubKey ->
  Curve pubKey = elliptic.S256 /\
  satisfies_curve_equation (X pubKey) (Y pubKey) /\
  0 <= X pubKey < 2 ^ 256 /\ 0 <= Y pubKey < 2 ^ 256 /\
  (length encodedKey = 64%nat \/
   length encodedKey = 65%nat /\ encodedKey !! 0%nat = Some x04).
Proof.
  intros H. apply Decode_Ret_inv in H as (body & Hk & L & Hp).
  pose proof (parse_body_Ret body pubKey L Hp) as (HC & Hon & _).
  unfold parse_body in Hp. cbv zeta in Hp.
  destruct (btcec.IsOnCurve _ _); [|done]. injection Hp as <-.
  cbn [Curve X Y] in *. split_and!; try done.
  - by apply IsOnCurve_spec.
  - apply SetBytes_lt_256. rewrite length_take. lia.
  - apply SetBytes_lt_256. rewrite length_take. lia.
  - apply SetBytes_lt_256. rewrite length_drop. lia.
  - apply SetBytes_lt_256. rewrite length_drop. lia.
  - destruct Hk as [-> | ->]; [by left|right]. cbn. by rewrite L.
Qed.

Lemma Decode_sound_witness :
  satisfies_curve_equation generator_x generator_y /\
  0 <= generator_x < 2 ^ 256.
Proof.
  destruct (Decode_sound
              (big.put 32 (Z.to_N generator_x)
               ++ big.put 32 (Z.to_N generator_y))
              {| Curve := elliptic.S256;
                 X := generator_x; Y := generator_y |})
    as (_ & H1 & H2 & _).
  - vm_compute. reflexivity.
  - split; [exact H1 | exact H2].
Defined.

(** X2. The decoder accepts the fixed-width encoding of every valid key:
    for a valid secp256k1 key, X and Y written on 32 big-endian bytes
    each decode to a key with the same X and Y, with or without the 0x04
    marker in front. *)
Theorem Decode_fixed_width (pubKey : PublicKey) :
  valid_secp256k1_key pubKey ->
  let body := big.put 32 (Z.to_N (X pubKey))
              ++ big.put 32 (Z.to_N (Y pubKey)) in
  let decoded :=
    {| Curve := elliptic.S256; X := X pubKey; Y := Y pubKey |} in
  DecodeECDSAPubKey body = Ret decoded /\
  DecodeECDSAPubKey (x04 :: body) = Ret decoded.
Proof.
  intros (Hx & Hy & Hc) body decoded. unfold btcec.P in Hx, Hy.
  assert (length body = 64%nat) as L
    by (unfold body; by rewrite length_app, !length_put).
  rewrite Decode_prefixed, Decode_raw by done.
  assert (parse_body body = Ret decoded) as ->; [|done].
  unfold parse_body, body. cbv zeta.
  rewrite take_app_length', drop_app_length' by (by rewrite length_put).
  rewrite !SetBytes_put_256 by lia.
  apply IsOnCurve_spec in Hc. by rewrite Hc.
Qed.

Lemma Decode_fixed_width_witness :
  DecodeECDSAPubKey
    (big.put 32 (Z.to_N 1)
     ++ big.put 32 (Z.to_N 0x4218f20ae6c646b363db68605822fb14264ca8d2587fdd6fbc750d587e76a7ee))
  = Ret {| Curve := elliptic.S256; X := 1;
           Y := 0x4218f20ae6c646b363db68605822fb14264ca8d2587fdd6fbc750d587e76a7ee |}.
Proof.
  apply (Decode_fixed_width
           {| Curve := elliptic.P256; X := 1;
              Y := 0x4218f20ae6c646b363db68605822fb14264ca8d2587fdd6fbc750d587e76a7ee |}).
  unfold valid_secp256k1_key, satisfies_curve_equation, btcec.P.
  cbn [X Y]. split_and!; try lia. vm_compute. reflexivity.
Defined.

(** X3. The decoder reads every byte of the body: two accepted inputs
    that decode to the same key carry the same 64-byte body, so they are
    equal as soon as they have the same length. *)
Theorem Decode_injective (encodedKey1 encodedKey2 : list byte)
    (pubKey : PublicKey) :
  DecodeECDSAPubKey encodedKey1 = Ret pubKey ->
  DecodeECDSAPubKey encodedKey2 = Ret pubKey ->
  (exists body, length body = 64%nat /\
     (encodedKey1 = body \/ encodedKey1 = x04 :: body) /\
     (encodedKey2 = body \/ encodedKey2 = x04 :: body)) /\
  (length encodedKey1 = length encodedKey2 -> encodedKey1 = encodedKey2).
Proof.
  intros H1 H2.
  apply Decode_Ret_inv in H1 as (b1 & K1 & L1 & P1).
  apply Decode_Ret_inv in H2 as (b2 & K2 & L2 & P2).
  pose proof (parse_body_Ret b1 pubKey L1 P1) as (_ & _ & E1).
  pose proof (parse_body_Ret b2 pubKey L2 P2) as (_ & _ & E2).
  assert (b1 = b2) as <- by congruence.
  split; [by exists b1|].
  destruct K1 as [-> | ->], K2 as [-> | ->]; cbn; intros; try done; lia.
Qed.

Lemma Decode_injective_witness :
  exists body, length body = 64%nat /\
    (big.put 32 (Z.to_N generator_x) ++ big.put 32 (Z.to_N generator_y)
     = body \/
     big.put 32 (Z.to_N generator_x) ++ big.put 32 (Z.to_N generator_y)
     = x04 :: body) /\
    (x04 :: big.put 32 (Z.to_N generator_x)
            ++ big.put 32 (Z.to_N generator_y) = body \/
     x04 :: big.put 32 (Z.to_N generator_x)
            ++ big.put 32 (Z.to_N generator_y) = x04 :: body).
Proof.
  apply (Decode_injective _ _
           {| Curve := elliptic.S256; X := generator_x; Y := generator_y |});
    vm_compute; reflexivity.
Defined.

(** ** Decoding, then encoding *)

(** X4. Encoding a decoded key gives back the body with the leading zero
    bytes of each half removed; it gives back the body itself exactly
    when neither half starts with a zero byte. *)
Theorem Encode_after_Decode (encodedKey body : list byte)
    (pubKey : PublicKey) :
  encodedKey = body \/ encodedKey = x04 :: body ->
  length body = 64%nat ->
  DecodeECDSAPubKey encodedKey = Ret pubKey ->
  EncodeS256PubKey pubKey
  = Ret (big.trim (take 32 body) ++ big.trim (drop 32 body)) /\
  (EncodeS256PubKey pubKey = Ret body <->
   body !! 0%nat <> Some x00 /\ body !! 32%nat <> Some x00).
Proof.
  intros Hk L H.
  assert (parse_body body = Ret pubKey) as Hp.
  { rewrite <- H. destruct Hk as [-> | ->];
      symmetry; auto using Decode_raw, Decode_prefixed. }
  unfold parse_body in Hp. cbv zeta in Hp.
  destruct (btcec.IsOnCurve _ _); [|done]. injection Hp as <-.
  unfold EncodeS256PubKey. cbn [X Y]. rewrite !Bytes_SetBytes.
  split; [done|].
  assert (length (take 32 body) = 32%nat) as L1
    by (rewrite length_take; lia).
  assert (length (drop 32 body) = 32%nat) as L2
    by (rewrite length_drop; lia).
  assert (forall l, length (big.trim l) <= length l)%nat as Hle.
  { induction l as [|b l IH]; [done|]. rewrite trim_cons.
    destruct (Byte.eqb b x00); cbn [length]; lia. }
  assert (forall l, big.trim l = l <-> l !! 0%nat <> Some x00) as Hid.
  { intros [|b l]; [done|]. split; [|apply trim_id].
    rewrite trim_cons. destruct (Byte.eqb b x00) eqn:E.
    - intros E'. pose proof (Hle l) as Hl. rewrite E' in Hl.
      cbn in Hl. lia.
    - intros _ [= ->]. done. }
  assert (take 32 body !! 0%nat = body !! 0%nat) as T0
    by (apply lookup_take_lt; lia).
  assert (drop 32 body !! 0%nat = body !! 32%nat) as D0
    by (by rewrite lookup_drop).
  rewrite <- T0, <- D0, <- !Hid.
  split.
  - intros [= E]. rewrite <- (take_drop 32 body) in E at 3.
    pose proof (Hle (take 32 body)). pose proof (Hle (drop 32 body)).
    apply app_inj_1 in E as [E1 E2]; [done|].
    apply (f_equal length) in E. rewrite !length_app in E. lia.
  - intros [-> ->]. by rewrite take_drop.
Qed.

Lemma Encode_after_Decode_witness :
  EncodeS256PubKey
    {| Curve := elliptic.S256; X := 1;
       Y := 0x4218f20ae6c646b363db68605822fb14264ca8d2587fdd6fbc750d587e76a7ee |}
  = Ret (big.trim (replicate 31 x00 ++ [x01])
         ++ big.trim (big.put 32 (Z.to_N 0x4218f20ae6c646b363db68605822fb14264ca8d2587fdd6fbc750d587e76a7ee))).
Proof.
  apply (Encode_after_Decode
           (x04 :: (replicate 31 x00 ++ [x01]) ++ big.put 32 (Z.to_N 0x4218f20ae6c646b363db68605822fb14264ca8d2587fdd6fbc750d587e76a7ee))
           ((replicate 31 x00 ++ [x01]) ++ big.put 32 (Z.to_N 0x4218f20ae6c646b363db68605822fb14264ca8d2587fdd6fbc750d587e76a7ee))).
  - right. reflexivity.
  - reflexivity.
  - vm_compute. reflexivity.
Defined.

(** X5. For a valid key the round trip through [EncodeS256PubKey] and
    [DecodeECDSAPubKey] returns X and Y exactly when both coordinates have
    32 significant bytes; for every other valid key it ends in the
    invalid-length error. *)
Theorem roundtrip_characterised (pubKey : PublicKey) :
  valid_secp256k1_key pubKey ->
  (encode_then_decode pubKey
   = Ret {| Curve := elliptic.S256; X := X pubKey; Y := Y pubKey |} <->
   full_width (X pubKey) /\ full_width (Y pubKey)) /\
  (encode_then_decode pubKey = Fail InvalidKeyEncoding <->
   X pubKey < 2 ^ 248 \/ Y pubKey < 2 ^ 248).
Proof.
  intros Hv. pose proof Hv as (Hx & Hy & _). unfold btcec.P in Hx, Hy.
  destruct (decide (X pubKey < 2 ^ 248 \/ Y pubKey < 2 ^ 248)) as [Hs|Hf].
  - rewrite (roundtrip_short_coordinate pubKey Hv Hs).
    unfold full_width. split; split; try done; lia.
  - assert (full_width (X pubKey) /\ full_width (Y pubKey)) as [Fx Fy]
      by (unfold full_width; lia).
    rewrite (roundtrip_full_width pubKey Hv Fx Fy).
    split; split; try done.
Qed.

Lemma roundtrip_characterised_witness :
  encode_then_decode
    {| Curve := elliptic.S256; X := generator_x; Y := generator_y |}
  = Ret {| Curve := elliptic.S256; X := generator_x; Y := generator_y |}.
Proof.
  apply (roundtrip_characterised
           {| Curve := elliptic.S256; X := generator_x; Y := generator_y |}).
  - unfold valid_secp256k1_key, satisfies_curve_equation, btcec.P,
      generator_x, generator_y.
    cbn [X Y]. split_and!; try lia. vm_compute. reflexivity.
  - unfold full_width, generator_x, generator_y. cbn [X Y]. lia.
Defined.

(** ** The signature composer *)

(** X6. The outcome of [ComposeECDSASignature], case by case.  If the
    value of [r] or of [s] needs more than 32 bytes the call panics in
    [FillBytes], whatever the recovery slice is; otherwise it panics on
    the index when the recovery slice is empty; otherwise it returns the
    two values on 32 big-endian bytes each, followed by the first recovery
    byte.  So the call returns exactly when both values are below [2^256]
    and the recovery slice is not empty. *)
Theorem Compose_outcome (r s recovery : list byte) :
  (2 ^ 256 <= big.SetBytes r \/ 2 ^ 256 <= big.SetBytes s ->
   ComposeECDSASignature r s recovery = Panic BufferTooSmall) /\
  (big.SetBytes r < 2 ^ 256 -> big.SetBytes s < 2 ^ 256 ->
   recovery = [] ->
   ComposeECDSASignature r s recovery = Panic IndexOutOfRange) /\
  (forall v rest,
   big.SetBytes r < 2 ^ 256 -> big.SetBytes s < 2 ^ 256 ->
   recovery = v :: rest ->
   ComposeECDSASignature r s recovery
   = Ret (big.put 32 (big.setBytes r) ++ big.put 32 (big.setBytes s)
          ++ [v])) /\
  ((exists out, ComposeECDSASignature r s recovery = Ret out) <->
   big.SetBytes r < 2 ^ 256 /\ big.SetBytes s < 2 ^ 256 /\ recovery <> []).
Proof.
  assert (forall l, big.SetBytes l < 2 ^ 256 ->
            big.FillBytes (big.SetBytes l) (make 32)
            = Ret (big.put 32 (big.setBytes l))) as Hfit.
  { intros l Hl. rewrite FillBytes_fits; rewrite abs_N_SetBytes, length_make;
      [done|].
    unfold big.SetBytes in Hl.
    change (256 ^ N.of_nat 32)%N with (Z.to_N (2 ^ 256)). lia. }
  assert (forall l, 2 ^ 256 <= big.SetBytes l ->
            big.FillBytes (big.SetBytes l) (make 32)
            = Panic BufferTooSmall) as Hover.
  { intros l Hl. apply FillBytes_overflow.
    rewrite abs_N_SetBytes, length_make. unfold big.SetBytes in Hl.
    change (256 ^ N.of_nat 32)%N with (Z.to_N (2 ^ 256)). lia. }
  assert (forall v rest,
            big.SetBytes r < 2 ^ 256 -> big.SetBytes s < 2 ^ 256 ->
            recovery = v :: rest ->
            ComposeECDSASignature r s recovery
            = Ret (big.put 32 (big.setBytes r)
                   ++ big.put 32 (big.setBytes s) ++ [v])) as Hret.
  { intros v rest Hr Hs ->.
    by rewrite Compose_steps, (Hfit r), (Hfit s). }
  split_and!.
  - intros [Hr|Hs]; [by apply Compose_overflow_r|].
    rewrite Compose_steps.
    destruct (Z.lt_ge_cases (big.SetBytes r) (2 ^ 256)) as [Hr|Hr].
    + by rewrite (Hfit r), (Hover s).
    + by rewrite (Hover r).
  - intros Hr Hs ->. by rewrite Compose_steps, (Hfit r), (Hfit s).
  - exact Hret.
  - split.
    + intros [out H]. pose proof (Compose_Ret_fits _ _ _ _ H) as [Hr Hs].
      split_and!; try done. intros ->.
      apply Compose_Ret_inv in H as (L & _ & _ & V).
      rewrite lookup_nil in V. apply lookup_ge_None in V. lia.
    + intros (Hr & Hs & Hv). destruct recovery as [|v rest]; [done|].
      eexists. by apply (Hret v rest).
Qed.

Lemma Compose_outcome_witness :
  ComposeECDSASignature [x12; x34] (x01 :: replicate 32 x00) []
  = Panic BufferTooSmall /\
  ComposeECDSASignature [] [] [] = Panic IndexOutOfRange /\
  ComposeECDSASignature [] [] [x1b; x00]
  = Ret (big.put 32 (big.setBytes []) ++ big.put 32 (big.setBytes [])
         ++ [x1b]).
Proof.
  split_and!.
  - apply (Compose_outcome [x12; x34] (x01 :: replicate 32 x00) []).
    right. vm_compute. discriminate.
  - apply (Compose_outcome [] [] []); reflexivity.
  - pose proof (Compose_outcome [] [] [x1b; x00]) as (_ & _ & H & _).
    apply (H x1b [x00]); reflexivity.
Defined.

(** X7. Leading zero bytes of [r] and of [s] do not matter: the composer
    reads the two slices as numbers, so any number of zero bytes in front
    of either leaves the result unchanged. *)
Theorem Compose_leading_zeros (n m : nat) (r s recovery : list byte) :
  ComposeECDSASignature (replicate n x00 ++ r) (replicate m x00 ++ s)
    recovery
  = ComposeECDSASignature r s recovery.
Proof.
  rewrite !Compose_steps. unfold big.SetBytes.
  by rewrite !setBytes_zeros.
Qed.

(** X8. The output determines what was signed: two calls that return the
    same bytes were given the same value of [r], the same value of [s]
    and the same first recovery byte; when the two [r] (or the two [s])
    have the same length they are the same byte string. *)
Theorem Compose_injective (r1 s1 recovery1 r2 s2 recovery2 out : list byte) :
  ComposeECDSASignature r1 s1 recovery1 = Ret out ->
  ComposeECDSASignature r2 s2 recovery2 = Ret out ->
  big.SetBytes r1 = big.SetBytes r2 /\
  big.SetBytes s1 = big.SetBytes s2 /\
  recovery1 !! 0%nat = recovery2 !! 0%nat /\
  (length r1 = length r2 -> r1 = r2) /\
  (length s1 = length s2 -> s1 = s2).
Proof.
  intros H1 H2.
  apply Compose_Ret_inv in H1 as (_ & R1 & S1 & V1).
  apply Compose_Ret_inv in H2 as (_ & R2 & S2 & V2).
  assert (big.SetBytes r1 = big.SetBytes r2) as Er by congruence.
  assert (big.SetBytes s1 = big.SetBytes s2) as Es by congruence.
  split_and!; try done; try congruence.
  - intros L. by apply SetBytes_inj.
  - intros L. by apply SetBytes_inj.
Qed.

Lemma Compose_injective_witness :
  big.SetBytes [x00; x12; x34] = big.SetBytes [x12; x34] /\
  [x01] !! 0%nat = [x01; xff] !! 0%nat.
Proof.
  destruct (Compose_injective [x00; x12; x34] [x56] [x01]
              [x12; x34] [x00; x56] [x01; xff]
              (left_pad 32 [x12; x34] ++ left_pad 32 [x56] ++ [x01]))
    as (H1 & _ & H2 & _).
  - vm_compute. reflexivity.
  - vm_compute. reflexivity.
  - split; [exact H1 | exact H2].
Defined.

(** X9. Short and empty inputs.  For [r] and [s] of at most 32 bytes,
    the empty slice included, and a recovery slice of any length that is
    not empty, the composer returns [r] and [s] left-padded with zero
    bytes to 32 bytes each, followed by the first recovery byte; empty
    [r] and [s] give 64 zero bytes. *)
Theorem Compose_short_inputs (r s rest : list byte) (v : byte) :
  (length r <= 32)%nat -> (length s <= 32)%nat ->
  ComposeECDSASignature r s (v :: rest)
  = Ret (left_pad 32 r ++ left_pad 32 s ++ [v]) /\
  ComposeECDSASignature [] [] (v :: rest) = Ret (replicate 64 x00 ++ [v]).
Proof.
  intros Hr Hs. split.
  - rewrite Compose_steps, !FillBytes_SetBytes by done. done.
  - rewrite Compose_steps, !FillBytes_SetBytes by (cbn; lia). done.
Qed.

Lemma Compose_short_inputs_witness :
  ComposeECDSASignature [] [x84] [x01; x02]
  = Ret (left_pad 32 [] ++ left_pad 32 [x84] ++ [x01]).
Proof. apply (Compose_short_inputs [] [x84] [x02] x01); cbn; lia. Defined.

(** X10. What a call does to the store.  Run on slices of allocated
    arrays, which may overlap or coincide, [ComposeECDSASignature]
    allocates three arrays and writes to nothing else: every slice of the
    old store reads as before, the returned slice is the whole of a new
    65-byte array, and its contents are those the by-value function gives
    for the bytes of the three arguments.  It panics over the store
    exactly when the by-value function panics. *)
Theorem Compose_in_frame (h : heap) (r s recovery : window) :
  allocated h r -> allocated h s -> allocated h recovery ->
  (forall sig h1,
     ComposeECDSASignature_in r s recovery h = Ret (sig, h1) ->
     take (length h) h1 = h /\
     length h1 = (length h + 3)%nat /\
     (forall w, allocated h w -> view h1 w = view h w) /\
     sig = mkWindow (length h) 0 65 /\
     ~ allocated h sig /\
     ComposeECDSASignature (view h r) (view h s) (view h recovery)
     = Ret (view h1 sig)) /\
  (forall p,
     ComposeECDSASignature_in r s recovery h = Panic p <->
     ComposeECDSASignature (view h r) (view h s) (view h recovery)
     = Panic p).
Proof.
  intros Hr Hs Hv. rewrite Compose_in_run by done.
  destruct (ComposeECDSASignature (view h r) (view h s) (view h recovery))
    as [out| |] eqn:E.
  - split; [|intros p; split; discriminate].
    intros sig h1 [= <- <-].
    pose proof (Compose_Ret_inv _ _ _ _ E) as (L & _).
    split_and!.
    + by rewrite take_app_length.
    + rewrite length_app. done.
    + intros w Hw. by apply view_extend.
    + done.
    + unfold allocated. cbn. lia.
    + rewrite (view_at h _ _ 0) by (cbn; lia).
      cbn [lookup list_lookup from_option id lo hi].
      by rewrite slice_all.
  - by apply Compose_never_Fail in E.
  - split; [discriminate|]. intros q. split; congruence.
Qed.

Lemma Compose_in_frame_witness :
  let h := [[x12; x34; x56; x78; x01]] in
  view (h ++ [left_pad 32 [x12; x34; x56]
              ++ left_pad 32 [x34; x56; x78] ++ [x01];
              left_pad 32 [x12; x34; x56];
              left_pad 32 [x34; x56; x78]]) (mkWindow 0 0 5)
  = view h (mkWindow 0 0 5).
Proof.
  intros h.
  destruct (Compose_in_frame h (mkWindow 0 0 3) (mkWindow 0 1 4)
              (mkWindow 0 4 5)) as [H _].
  - unfold allocated. cbn. lia.
  - unfold allocated. cbn. lia.
  - unfold allocated. cbn. lia.
  - destruct (H (mkWindow 1 0 65)
                (h ++ [left_pad 32 [x12; x34; x56]
                       ++ left_pad 32 [x34; x56; x78] ++ [x01];
                       left_pad 32 [x12; x34; x56];
                       left_pad 32 [x34; x56; x78]]))
      as (_ & _ & F & _).
    + vm_compute. reflexivity.
    + apply F. unfold allocated. cbn. lia.
Defined.

(** ** The encoder *)

(** X11. On keys whose coordinates both have 32 significant bytes the
    encoder is injective: equal outputs come from equal X and equal Y. *)
Theorem Encode_injective_full_width (pubKey1 pubKey2 : PublicKey) :
  full_width (X pubKey1) -> full_width (Y pubKey1) ->
  full_width (X pubKey2) -> full_width (Y pubKey2) ->
  EncodeS256PubKey pubKey1 = EncodeS256PubKey pubKey2 ->
  X pubKey1 = X pubKey2 /\ Y pubKey1 = Y pubKey2.
Proof.
  intros Hx1 Hy1 Hx2 Hy2.
  rewrite !Encode_full_width by done. intros E.
  assert (big.put 32 (Z.to_N (X pubKey1)) ++ big.put 32 (Z.to_N (Y pubKey1))
          = big.put 32 (Z.to_N (X pubKey2))
            ++ big.put 32 (Z.to_N (Y pubKey2))) as E' by congruence.
  apply app_inj_1 in E' as [Ex Ey]; [|by rewrite !length_put].
  unfold full_width in *.
  rewrite <- (SetBytes_put_256 (X pubKey1)), <- (SetBytes_put_256 (Y pubKey1)),
    Ex, Ey, !SetBytes_put_256 by lia.
  done.
Qed.

Lemma Encode_injective_full_width_witness :
  generator_x = generator_x /\ generator_y = generator_y.
Proof.
  apply (Encode_injective_full_width
           {| Curve := elliptic.S256; X := generator_x; Y := generator_y |}
           {| Curve := elliptic.P256; X := generator_x; Y := generator_y |});
    first [reflexivity | unfold full_width, generator_x, generator_y; cbn; lia].
Defined.

(** X12. Without padding the boundary between X and Y is lost.  Take any
    byte strings [a] and [b] that do not start with a zero byte, [a] not
    empty, and a non-zero byte [c]: the key with X read from [a ++ [c]]
    and Y from [b] and the key with X read from [a] and Y from [c :: b]
    have different X and yet the same encoding, [a ++ c :: b]. *)
Theorem Encode_ambiguous (curve : elliptic.Curve) (a b : list byte) (c : byte) :
  a <> [] -> a !! 0%nat <> Some x00 -> b !! 0%nat <> Some x00 ->
  c <> x00 ->
  let pubKey1 :=
    {| Curve := curve; X := big.SetBytes (a ++ [c]); Y := big.SetBytes b |} in
  let pubKey2 :=
    {| Curve := curve; X := big.SetBytes a; Y := big.SetBytes (c :: b) |} in
  EncodeS256PubKey pubKey1 = Ret (a ++ c :: b) /\
  EncodeS256PubKey pubKey2 = Ret (a ++ c :: b) /\
  X pubKey1 <> X pubKey2.
Proof.
  intros Ha Ha0 Hb0 Hc pubKey1 pubKey2.
  unfold EncodeS256PubKey, pubKey1, pubKey2. cbn [X Y].
  rewrite !Bytes_SetBytes.
  assert ((a ++ [c]) !! 0%nat <> Some x00) as Hac.
  { destruct a; [done|]. exact Ha0. }
  rewrite (trim_id a), (trim_id b), (trim_id (a ++ [c])), (trim_id (c :: b))
    by (done || (cbn; congruence)).
  split_and!.
  - by rewrite <- app_assoc.
  - done.
  - unfold big.SetBytes. rewrite setBytes_snoc.
    destruct a as [|a0 a]; [done|].
    assert (a0 <> x00) as Ha1 by (cbn in Ha0; congruence).
    pose proof (SetBytes_leading_nonzero a0 a Ha1) as Hpos.
    unfold big.SetBytes in Hpos.
    assert (0 < 256 ^ Z.of_nat (length a)) by (apply Z.pow_pos_nonneg; lia).
    lia.
Qed.

Lemma Encode_ambiguous_witness :
  EncodeS256PubKey
    {| Curve := elliptic.S256;
       X := big.SetBytes ([x01] ++ [x02]); Y := big.SetBytes [x03] |}
  = Ret ([x01] ++ [x02; x03]) /\
  EncodeS256PubKey
    {| Curve := elliptic.S256;
       X := big.SetBytes [x01]; Y := big.SetBytes [x02; x03] |}
  = Ret ([x01] ++ [x02; x03]).
Proof.
  destruct (Encode_ambiguous elliptic.S256 [x01] [x03] x02)
    as (H1 & H2 & _); try discriminate.
  split; [exact H1 | exact H2].
Defined.

Lemma trim_head (l : list byte) : big.trim l !! 0%nat <> Some x00.
Proof.
  induction l as [|b l IH]; [done|].
  rewrite trim_cons. destruct (Byte.eqb b x00) eqn:E; [done|].
  cbn. intros [= ->]. done.
Qed.

Lemma SetBytes_Bytes (x : Z) : big.SetBytes (big.Bytes x) = Z.abs x.
Proof.
  assert (Z.abs_N x < 256 ^ N.of_nat (N.to_nat (Z.abs_N x)))%N as Hlt.
  { rewrite N2Nat.id.
    eapply N.lt_le_trans; [apply (N.pow_gt_lin_r 256); lia|]. lia. }
  rewrite <- (trim_put _ x Hlt). unfold big.SetBytes.
  rewrite setBytes_trim, setBytes_put, N.mod_small by done.
  apply N2Z.inj_abs_N.
Qed.

(** X13. What the encoder writes for each coordinate.  The output is the
    bytes of X followed by the bytes of Y, where each part reads back, as
    a big-endian number, as the absolute value of its coordinate, and
    never starts with a zero byte: a zero coordinate contributes no byte
    at all, and the sign of a coordinate is not encoded. *)
Theorem Encode_minimal_parts (pubKey : PublicKey) :
  exists bx by_,
    EncodeS256PubKey pubKey = Ret (bx ++ by_) /\
    big.SetBytes bx = Z.abs (X pubKey) /\
    big.SetBytes by_ = Z.abs (Y pubKey) /\
    bx !! 0%nat <> Some x00 /\ by_ !! 0%nat <> Some x00 /\
    (X pubKey = 0 -> bx = []) /\ (Y pubKey = 0 -> by_ = []).
Proof.
  exists (big.Bytes (X pubKey)), (big.Bytes (Y pubKey)).
  split_and!; try done.
  - apply SetBytes_Bytes.
  - apply SetBytes_Bytes.
  - apply trim_head.
  - apply trim_head.
  - by intros ->.
  - by intros ->.
Qed.

Lemma Encode_minimal_parts_witness :
  exists bx by_,
    EncodeS256PubKey {| Curve := elliptic.P256; X := 0; Y := -258 |}
    = Ret (bx ++ by_) /\
    big.SetBytes by_ = 258 /\ bx = [].
Proof.
  destruct (Encode_minimal_parts
              {| Curve := elliptic.P256; X := 0; Y := -258 |})
    as (bx & by_ & E & _ & Hy & _ & _ & Hx & _).
  exists bx, by_. split_and!; [exact E | exact Hy | apply Hx; reflexivity].
Defined.
